(** * react-mool-gqless-dataprovider: input fixer, required-field validator
      and query batcher

    A shallow embedding of [src/fixInputData.ts], [helpers/utils.ts],
    the required-field validator (validateRequiredInputData) and
    [helpers/queryBatcher.ts], with the properties stated about them. *)

From Stdlib Require Import ZArith Lia Ascii.
From stdpp Require Import base option list strings gmap pretty.

(** ** The JavaScript runtime the code runs on *)

(** The IEEE-754 doubles of the host and the built-ins over them that the
    source calls.  The code never computes with numbers itself; it only
    hands them to these built-ins, so they are kept abstract. *)
Class JSNumber := {
  number : Type;
  num_nan : number;                     (* NaN *)
  num_of_nat : nat -> number;           (* a length or a literal 0 / 1 *)
  num_is_integer : number -> bool;      (* Number.isInteger *)
  num_round : number -> number;         (* Math.round *)
  num_of_string : string -> number;     (* Number(s) on a string *)
  num_to_string : number -> string;     (* String(n) on a number *)
  num_truthy : number -> bool;          (* Boolean(n): false on 0, -0, NaN *)
}.

Section Values.
Context `{JSNumber}.

(** Plain data as the callers pass it: [any] restricted to what JSON-like
    input can hold, plus [undefined].  An object is the list of its own
    enumerable properties in [for ... in] order; property names of one
    object are pairwise distinct. *)
Local Unset Elimination Schemes.
Inductive value : Type :=
  | VUndefined
  | VNull
  | VBool (b : bool)
  | VNum (n : number)
  | VStr (s : string)
  | VArr (items : list value)
  | VObj (fields : list (string * value)).
Local Set Elimination Schemes.

(** [value == null] *)
Definition is_nullish (v : value) : bool :=
  match v with VUndefined | VNull => true | _ => false end.

(** [Array.isArray(value)] *)
Definition is_array (v : value) : bool :=
  match v with VArr _ => true | _ => false end.

(** [String(value)].  Array elements that are null or undefined print as
    the empty string inside [Array.prototype.join]. *)
Fixpoint ToString (v : value) : string :=
  match v with
  | VUndefined => "undefined"
  | VNull => "null"
  | VBool true => "true"
  | VBool false => "false"
  | VNum n => num_to_string n
  | VStr s => s
  | VArr items =>
      (fix join (l : list value) : string :=
         match l with
         | [] => ""
         | [x] => if is_nullish x then "" else ToString x
         | x :: rest =>
             (if is_nullish x then "" else ToString x) +:+ "," +:+ join rest
         end) items
  | VObj _ => "[object Object]"
  end.

(** [Number(value)] *)
Definition ToNumber (v : value) : number :=
  match v with
  | VUndefined => num_nan
  | VNull => num_of_nat 0
  | VBool true => num_of_nat 1
  | VBool false => num_of_nat 0
  | VNum n => n
  | VStr s => num_of_string s
  | VArr _ => num_of_string (ToString v)
  | VObj _ => num_nan
  end.

(** [Boolean(value)] *)
Definition ToBoolean (v : value) : bool :=
  match v with
  | VUndefined | VNull => false
  | VBool b => b
  | VNum n => num_truthy n
  | VStr s => negb (String.eqb s "")
  | VArr _ | VObj _ => true
  end.

(** [value[key]] on an object: its own property, else [undefined]. *)
Fixpoint obj_get (fields : list (string * value)) (key : string) : value :=
  match fields with
  | [] => VUndefined
  | (k, x) :: rest => if String.eqb k key then x else obj_get rest key
  end.

(** [result[key] = x] on an object: overwrite in place, else append. *)
Fixpoint obj_set (fields : list (string * value)) (key : string) (x : value)
  : list (string * value) :=
  match fields with
  | [] => [(key, x)]
  | (k, y) :: rest =>
      if String.eqb k key then (k, x) :: rest else (k, y) :: obj_set rest key x
  end.

(** [for (const key in value) { const y = body(key, value[key]);
    if (y) result[key] = y }] with [result] starting empty: the shape of
    the loops of [fixValue] and [fixInputData]. *)
Definition forInAssign (body : string -> value -> option value)
    (fields : list (string * value)) : list (string * value) :=
  foldl (fun result kv =>
           match body kv.1 (obj_get fields kv.1) with
           | Some y => obj_set result kv.1 y
           | None => result
           end) [] fields.

End Values.

(** ** Schema types (package gqless) *)

(** [Type] of gqless: the type name of a field or operation and, for an
    operation, the type names of its arguments. *)
Record Type_ := { __type : string; __args : option (gmap string string) }.

(** [Schema]: type name to fields.  A schema object is read as the finite
    map of its own properties.  Field and argument names are GraphQL
    names, so none of them is an array index. *)
Abbreviation TypeObject := (gmap string Type_).
Abbreviation Schema := (gmap string (gmap string Type_)).

Record ParseSchemaTypeInfo := {
  pureType : string;
  isNullable : bool;
  isArray : bool;
  nullableItems : bool;
}.

(** [s.endsWith("!")] *)
Fixpoint ends_with_bang (s : string) : bool :=
  match s with
  | "" => false
  | String c "" => bool_decide (c = "!"%char)
  | String _ rest => ends_with_bang rest
  end.

(** [s.slice(0, s.length - 1)] *)
Fixpoint drop_last (s : string) : string :=
  match s with
  | "" => ""
  | String _ "" => ""
  | String c rest => String c (drop_last rest)
  end.

(** [s.startsWith("[")] *)
Definition starts_with_bracket (s : string) : bool :=
  match s with
  | String c _ => bool_decide (c = "["%char)
  | "" => false
  end.

(** [s.slice(1, s.length - 1)] *)
Definition drop_first_last (s : string) : string :=
  match s with
  | String _ rest => drop_last rest
  | "" => ""
  end.

(** Modelled from the spec: [parseSchemaType] is imported from the gqless
    package and is not part of the sources.  A trailing [!] makes the value
    non-nullable; a bracketed name is an array whose item name is what the
    brackets enclose, and a [!] closing the item name makes the items
    non-nullable; the pure type is the name with these markers stripped. *)
Definition parseSchemaType (typeName : string) : ParseSchemaTypeInfo :=
  let nonNull := ends_with_bang typeName in
  let t1 := if nonNull then drop_last typeName else typeName in
  if starts_with_bracket t1 then
    let t2 := drop_first_last t1 in
    let nonNullItems := ends_with_bang t2 in
    {| pureType := if nonNullItems then drop_last t2 else t2;
       isNullable := negb nonNull;
       isArray := true;
       nullableItems := negb nonNullItems |}
  else
    {| pureType := t1;
       isNullable := negb nonNull;
       isArray := false;
       nullableItems := true |}.

(** ** helpers/utils.ts *)

Definition scalars : list string := ["Int"; "Float"; "String"; "Boolean"; "ID"].

Definition isScalar (typeName : string) : bool :=
  bool_decide (typeName ∈ scalars).

Section Fixer.
Context `{JSNumber}.

Definition isPlainObject (v : value) : bool :=
  negb (is_nullish v) && negb (is_array v).

(** ** fixInputData.ts *)

Definition fixScalar (v : value) (typeName : string) : value :=
  if String.eqb typeName "Int" then
    match v with
    | VNum n => if num_is_integer n then v else VNum (num_round (ToNumber v))
    | _ => VNum (num_round (ToNumber v))
    end
  else if String.eqb typeName "Float" then
    match v with
    | VNum _ => v
    | _ => VNum (ToNumber v)
    end
  else if String.eqb typeName "String" || String.eqb typeName "ID" then
    match v with
    | VStr _ => v
    | _ => VStr (ToString v)
    end
  else if String.eqb typeName "Boolean" then
    match v with
    | VBool _ => v
    | _ => VBool (ToBoolean v)
    end
  else v.

(** The loop [for (const key in value) { ... result[key] = ... }] runs over
    the own properties of an object.  Property names are distinct, so
    [value[key]] is the property at hand and the assignment appends to
    [result].  A number, boolean or string gets to the loop too (it passes
    [isPlainObject]); it has no enumerable property named like a schema
    field, and the loop leaves [result] empty.

    [schema[pureType]] and [typeObject[key]] are looked up among the own
    properties of the schema and of the type.  That is what the code
    reads as long as the name is not one of a member of
    [Object.prototype]; [Chain.fixValue] below reads such names as the
    code does, and on input without them the two agree. *)
Fixpoint fixValue (v : value) (typeName : string) (schema : Schema) {struct v}
  : value :=
  if is_nullish v then v
  else
    let p := parseSchemaType typeName in
    if isArray p then
      match v with
      | VArr items =>
          VArr ((fix each (l : list value) : list value :=
                   match l with
                   | [] => []
                   | item :: rest => fixValue item (pureType p) schema :: each rest
                   end) items)
      | _ => VUndefined
      end
    else if isScalar (pureType p) then fixScalar v (pureType p)
    else
      match schema !! pureType p with
      | None => v
      | Some typeObject =>
          if negb (isPlainObject v) then VUndefined
          else
            match v with
            | VObj fields =>
                VObj ((fix each (l : list (string * value)) :=
                         match l with
                         | [] => []
                         | (key, x) :: rest =>
                             match typeObject !! key with
                             | Some type =>
                                 (key, fixValue x (__type type) schema) :: each rest
                             | None => each rest
                             end
                         end) fields)
            | _ => VObj []
            end
      end.

(** [args?.[key]] followed by the truthiness test [if (argTypeName)]: an
    argument whose type name is the empty string counts as absent.  The
    lookup is among the arguments the operation declares; [Chain.readArg]
    is the lookup with the members of [Object.prototype] included. *)
Definition argTypeName (operationType : Type_) (key : string) : option string :=
  match __args operationType with
  | None => None
  | Some args =>
      match args !! key with
      | Some t => if String.eqb t "" then None else Some t
      | None => None
      end
  end.

(** The body of the loop of [fixInputData] on one property. *)
Definition fixArg (operationType : Type_) (schema : Schema) (kv : string * value)
  : option (string * value) :=
  match argTypeName operationType kv.1 with
  | Some t => Some (kv.1, fixValue kv.2 t schema)
  | None => None
  end.

Definition fixInputData (data : value) (operationType : Type_) (schema : Schema)
  : value :=
  if negb (isPlainObject data) then data
  else
    match data with
    | VObj fields => VObj (omap (fixArg operationType schema) fields)
    | _ => VObj []
    end.

(** The body of the loop of [fixValue] on one property. *)
Definition fixField (typeObject : TypeObject) (schema : Schema) (kv : string * value)
  : option (string * value) :=
  match typeObject !! kv.1 with
  | Some type => Some (kv.1, fixValue kv.2 (__type type) schema)
  | None => None
  end.

(** ** What a fixed value looks like *)

(** [pruned schema typeName v]: read against [typeName], the value [v]
    holds no property the schema does not name.  Where the type is an
    array the items are read against the item type; where it has fields in
    the schema, every property of an object is one of the fields and its
    value is read against the type of the field; a type without an entry
    in the schema is opaque and [v] is not looked into.  An object or an
    array where the type admits none has keys with no field set to
    belong to. *)
Fixpoint pruned (schema : Schema) (typeName : string) (v : value) {struct v} : bool :=
  let p := parseSchemaType typeName in
  if isArray p then
    match v with
    | VArr items =>
        (fix all (l : list value) : bool :=
           match l with
           | [] => true
           | item :: rest => pruned schema (pureType p) item && all rest
           end) items
    | VObj _ => false
    | _ => true
    end
  else if isScalar (pureType p) then
    match v with
    | VArr _ | VObj _ => false
    | _ => true
    end
  else
    match schema !! pureType p with
    | None => true
    | Some typeObject =>
        match v with
        | VObj fields =>
            (fix all (l : list (string * value)) : bool :=
               match l with
               | [] => true
               | (key, x) :: rest =>
                   match typeObject !! key with
                   | Some type => pruned schema (__type type) x && all rest
                   | None => false
                   end
               end) fields
        | VArr _ => false
        | _ => true
        end
    end.

(** The same at the root, read against the arguments of the operation. *)
Definition prunedArgs (operationType : Type_) (schema : Schema) (v : value) : bool :=
  match v with
  | VObj fields =>
      forallb (fun kv => match argTypeName operationType kv.1 with
                         | Some t => pruned schema t kv.2
                         | None => false
                         end) fields
  | VArr _ => false
  | _ => true
  end.

(** [typeof value === "number" && Number.isInteger(value)] *)
Definition is_integral (v : value) : bool :=
  match v with
  | VNum n => num_is_integer n
  | _ => false
  end.

End Fixer.

(** ** The required-field validator *)

Abbreviation ValidationErrors := (gmap string string).

Record ValidationContext := {
  validationErrors : ValidationErrors;
  requiredErrorMessage : string;
}.

(** [appendFieldPath]; an array index is passed as its decimal string. *)
Definition appendFieldPath (current fieldPath : string) : string :=
  if String.eqb current "" then fieldPath else current +:+ "." +:+ fieldPath.

(** [context.validationErrors[fieldPath] = context.requiredErrorMessage] *)
Definition report (fieldPath : string) (context : ValidationContext)
  : ValidationContext :=
  {| validationErrors :=
       <[fieldPath := requiredErrorMessage context]> (validationErrors context);
     requiredErrorMessage := requiredErrorMessage context |}.

(** [validateValue(undefined, ...)]: there is nothing to descend into, so
    only the required test can fire. *)
Definition validateMissing (fieldPath typeName : string)
    (context : ValidationContext) : ValidationContext :=
  if negb (isNullable (parseSchemaType typeName)) then report fieldPath context
  else context.

(** [validateValue] on a number or a boolean: it is not nullish and not an
    array, it passes [isPlainObject], and every field read from it is
    [undefined]. *)
Definition validatePrimitive (fieldPath typeName : string) (schema : Schema)
    (context : ValidationContext) : ValidationContext :=
  let p := parseSchemaType typeName in
  if isArray p then context
  else if negb (isScalar (pureType p)) then
    match schema !! pureType p with
    | None => context
    | Some typeObject =>
        map_fold (fun key type ctx =>
                    validateMissing (appendFieldPath fieldPath key) (__type type) ctx)
                 context typeObject
    end
  else context.

Section Validator.
Context `{JSNumber}.

(** The first [forEach] of [validateValue]: a violation for every nullish
    item of an array whose items are required. *)
Fixpoint reportNullItems (items : list value) (index : nat) (fieldPath : string)
    (context : ValidationContext) : ValidationContext :=
  match items with
  | [] => context
  | item :: rest =>
      reportNullItems rest (S index) fieldPath
        (if is_nullish item
         then report (appendFieldPath fieldPath (pretty index)) context
         else context)
  end.

(** The context is threaded through the calls.  In the loop over the fields
    of the type, [value[key]] is looked up among the own properties of the
    object; on a string the only own property a schema can name is
    [length], a number.  A field named like a member of a built-in
    prototype would read that member where the value has no such property
    of its own; [plainNames] below says that the schema has no such
    field. *)
Fixpoint validateValue (v : value) (fieldPath typeName : string) (schema : Schema)
    (context : ValidationContext) {struct v} : ValidationContext :=
  let p := parseSchemaType typeName in
  if negb (isNullable p) && is_nullish v then report fieldPath context
  else
    let context1 :=
      if isArray p && negb (nullableItems p) then
        match v with
        | VArr items => reportNullItems items 0 fieldPath context
        | _ => context
        end
      else context in
    if isArray p then
      match v with
      | VArr items =>
          (fix each (l : list value) (index : nat) (ctx : ValidationContext) :=
             match l with
             | [] => ctx
             | item :: rest =>
                 each rest (S index)
                   (validateValue item (appendFieldPath fieldPath (pretty index))
                      (pureType p) schema ctx)
             end) items 0 context1
      | _ => context1
      end
    else if negb (isScalar (pureType p)) then
      match schema !! pureType p with
      | None => context1
      | Some typeObject =>
          if negb (isPlainObject v) then context1
          else
            map_fold
              (fun key type ctx =>
                 let path := appendFieldPath fieldPath key in
                 match v with
                 | VObj fields =>
                     (fix get (l : list (string * value)) :=
                        match l with
                        | [] => validateMissing path (__type type) ctx
                        | (k, x) :: rest =>
                            if String.eqb k key
                            then validateValue x path (__type type) schema ctx
                            else get rest
                        end) fields
                 | VStr _ =>
                     if String.eqb key "length"
                     then validatePrimitive path (__type type) schema ctx
                     else validateMissing path (__type type) ctx
                 | _ => validateMissing path (__type type) ctx
                 end)
              context1 typeObject
      end
    else context1.

(** [data[key]] at the root, among the own properties of [data]. *)
Definition get_prop (data : value) (key : string) : value :=
  match data with
  | VObj fields => obj_get fields key
  | VStr s =>
      if String.eqb key "length" then VNum (num_of_nat (String.length s))
      else VUndefined
  | _ => VUndefined
  end.

Definition validateRequiredInputData (data : value) (operationType : Type_)
    (schema : Schema) (requiredErrorMessage : string) : option ValidationErrors :=
  let context :=
    {| validationErrors := ∅; requiredErrorMessage := requiredErrorMessage |} in
  if negb (isPlainObject data) then None
  else
    let context' :=
      match __args operationType with
      | None => context
      | Some args =>
          map_fold (fun key argTypeName ctx =>
                      validateValue (get_prop data key) "" argTypeName schema ctx)
                   context args
      end in
    if bool_decide (0 < size (validationErrors context'))
    then Some (validationErrors context')
    else None.

End Validator.

(** ** helpers/queryBatcher.ts *)

(** The client of the gqless package as the batcher sees it.
    [RequestFunc] is [RequestFunc<T>], [result] is [T], [error] is what a
    promise is rejected with; the [TypeError] the runtime throws on
    [reqs[i].resolve] when [reqs[i]] is undefined is one of the errors.
    [resolved] is [gqlessClient.resolved(fn, {noCache: true, retry: false})]
    on one queued function, [resolved_all] the same call on the thunk that
    runs every queued function and returns the list of their results.  The
    client is stateful; its state is threaded in the order the calls are
    issued.  Calls that run side by side answer when the client pleases:
    [answerTime c f] is when the call of [f] issued in state [c] answers. *)
Class GQlessClient := {
  RequestFunc : Type;
  result : Type;
  error : Type;
  type_error : error;
  client : Type;
  resolved_all : client -> list RequestFunc -> (list result + error) * client;
  resolved : client -> RequestFunc -> (result + error) * client;
  answerTime : client -> RequestFunc -> nat;
}.

Section Batcher.
Context `{GQlessClient}.

(** An entry holds the function and the [resolve] and [reject] callbacks of
    the promise [request] returned; the promise stands for the pair. *)
Record RequestEntry := { func : RequestFunc; promise : nat }.

(** A call of an entry's [resolve] or [reject]. *)
Inductive settle :=
  | Resolve (p : nat) (r : result)
  | Reject (p : nat) (reason : error).

(** The closure state of [createQueryBatcher]. *)
Record Batcher := {
  requests : list RequestEntry;
  hTimeout : option unit;      (* [None] is [null], [Some] a pending timer *)
}.

Definition startTimeout (b : Batcher) : Batcher :=
  {| requests := requests b; hTimeout := Some () |}.

(** The executor of the promise [p] that [request(func)] returns. *)
Definition request (f : RequestFunc) (p : nat) (b : Batcher) : Batcher :=
  let b1 := {| requests := requests b ++ [{| func := f; promise := p |}];
               hTimeout := hTimeout b |} in
  match hTimeout b1 with
  | None => startTimeout b1
  | Some _ => b1
  end.

(** [results.forEach((res, i) => reqs[i].resolve(res))]: the calls made, and
    the error thrown if the loop was cut short. *)
Fixpoint deliver (reqs : list RequestEntry) (results : list result) (i : nat)
  : list settle * option error :=
  match results with
  | [] => ([], None)
  | res :: rest =>
      match reqs !! i with
      | Some req =>
          let '(calls, thrown) := deliver reqs rest (S i) in
          (Resolve (promise req) res :: calls, thrown)
      | None => ([], Some type_error)
      end
  end.

(** One retry: [resolved(req.func)] settles [req] one way or the other. *)
Definition settleWith (req : RequestEntry) (outcome : result + error) : settle :=
  match outcome with
  | inl r => Resolve (promise req) r
  | inr reqErr => Reject (promise req) reqErr
  end.

(** The calls [reqs.map(async (req) => ...)] issues, in the order of
    [reqs]: each with the time its answer comes and the callback that
    answer leads to. *)
Fixpoint retryCalls (reqs : list RequestEntry) (c : client)
  : list (nat * settle) * client :=
  match reqs with
  | [] => ([], c)
  | req :: rest =>
      let '(outcome, c1) := resolved c (func req) in
      let '(timed, c2) := retryCalls rest c1 in
      ((answerTime c (func req), settleWith req outcome) :: timed, c2)
  end.

(** Callbacks in the order their answers come; answers of the same time
    keep the order of the calls. *)
Fixpoint insertByTime (x : nat * settle) (l : list (nat * settle))
  : list (nat * settle) :=
  match l with
  | [] => [x]
  | y :: rest => if x.1 <=? y.1 then x :: l else y :: insertByTime x rest
  end.

Definition byTime (l : list (nat * settle)) : list (nat * settle) :=
  foldr insertByTime [] l.

(** [Promise.all(reqs.map(async (req) => ...))]: every retry awaits its
    own call and settles its entry when that call answers. *)
Definition retryEach (reqs : list RequestEntry) (c : client) : list settle * client :=
  let '(timed, c') := retryCalls reqs c in ((byTime timed).*2, c').

(** The [catch (err)] block. *)
Definition onError (reqs : list RequestEntry) (err : error) (c : client)
  : list settle * client :=
  if Nat.eqb (length reqs) 1 then
    match reqs !! 0 with
    | Some req => ([Reject (promise req) err], c)
    | None => ([], c)
    end
  else retryEach reqs c.

(** [runRequests]: the batcher after the queue was taken, the client after
    the calls, and the callbacks called, in order. *)
Definition runRequests (b : Batcher) (c : client) : Batcher * client * list settle :=
  let reqs := requests b in
  let b' := {| requests := []; hTimeout := hTimeout b |} in
  match resolved_all c (func <$> reqs) with
  | (inl results, c1) =>
      match deliver reqs results 0 with
      | (calls, None) => (b', c1, calls)
      | (calls, Some err) =>
          let '(more, c2) := onError reqs err c1 in (b', c2, calls ++ more)
      end
  | (inr err, c1) =>
      let '(calls, c2) := onError reqs err c1 in (b', c2, calls)
  end.

(** The callback of the timer: [hTimeout = null; runRequests()]. *)
Definition onTimeout (b : Batcher) (c : client) : Batcher * client * list settle :=
  runRequests {| requests := requests b; hTimeout := None |} c.

(** What happens to a batcher: a caller submits a function, or the pending
    timer fires. *)
Inductive event :=
  | Submit (f : RequestFunc)
  | TimerFires.

(** The batcher in its surroundings: the client, the promises created so
    far, every callback called so far, and the queue each run of
    [runRequests] took, oldest first. *)
Record World := {
  batcher : Batcher;
  gqlessClient : client;
  promises : nat;
  settled : list settle;
  cycles : list (list RequestEntry);
}.

Definition init (c : client) : World :=
  {| batcher := {| requests := []; hTimeout := None |};
     gqlessClient := c; promises := 0; settled := []; cycles := [] |}.

(** A timer exists only while [hTimeout] holds its handle, so [TimerFires]
    with no handle stored does not occur and changes nothing.  A run is
    taken as one step: after its first two statements [runRequests] reads
    the local [reqs] only, so what a run calls does not depend on what
    happens while it waits for its answers.  [settled] holds the
    callbacks run by run; the callbacks of two runs that wait side by
    side may be called in any order. *)
Definition step (w : World) (e : event) : World :=
  match e with
  | Submit f =>
      {| batcher := request f (promises w) (batcher w);
         gqlessClient := gqlessClient w;
         promises := S (promises w);
         settled := settled w;
         cycles := cycles w |}
  | TimerFires =>
      match hTimeout (batcher w) with
      | None => w
      | Some _ =>
          let '(b', c', calls) := onTimeout (batcher w) (gqlessClient w) in
          {| batcher := b';
             gqlessClient := c';
             promises := promises w;
             settled := settled w ++ calls;
             cycles := cycles w ++ [requests (batcher w)] |}
      end
  end.

Definition run (events : list event) (w : World) : World := foldl step w events.


(** The client's state when the retry of entry number [i] is issued. *)
Definition clientBefore (reqs : list RequestEntry) (i : nat) (c : client) : client :=
  foldl (fun c req => (resolved c (func req)).2) c (take i reqs).

End Batcher.

(** ** Values the fixer leaves alone *)

Section FixerShape.
Context `{JSNumber}.

(** [typeof value] is the type a scalar name stands for: ["number"] for
    [Int] and [Float], ["string"] for [String] and [ID], ["boolean"] for
    [Boolean]. *)
Definition typeofMatches (typeName : string) (v : value) : bool :=
  if String.eqb typeName "Int" || String.eqb typeName "Float" then
    match v with VNum _ => true | _ => false end
  else if String.eqb typeName "String" || String.eqb typeName "ID" then
    match v with VStr _ => true | _ => false end
  else if String.eqb typeName "Boolean" then
    match v with VBool _ => true | _ => false end
  else false.




(** The property names of an object, in order. *)
Definition keys (v : value) : list string :=
  match v with
  | VObj fields => fields.*1
  | _ => []
  end.

End FixerShape.

(** ** Input with nothing required missing *)

(** A number or a boolean read against a type: every field of the type is
    read as [undefined], so every field has to be nullable. *)
Definition completePrimitive (schema : Schema) (typeName : string) : bool :=
  let p := parseSchemaType typeName in
  if isArray p then true
  else if negb (isScalar (pureType p)) then
    match schema !! pureType p with
    | None => true
    | Some typeObject =>
        bool_decide (map_Forall (fun _ type =>
                       isNullable (parseSchemaType (__type type)) = true) typeObject)
    end
  else true.

Section ValidatorShape.
Context `{JSNumber}.

(** [complete schema typeName v]: read against [typeName], the value [v]
    has a non-null value wherever the type is non-nullable.  [v] itself
    is not nullish if the type ends in [!]; if the type is an array with
    non-nullable items, no item of the array is nullish; every item is
    complete against the item type; and, where the type has fields in the
    schema and [v] passes [isPlainObject], every field of the type, read
    from [v] (a missing property reads as [undefined]), is complete
    against the type of the field. *)
Fixpoint complete (schema : Schema) (typeName : string) (v : value) {struct v} : bool :=
  let p := parseSchemaType typeName in
  if negb (isNullable p) && is_nullish v then false
  else
    (if isArray p && negb (nullableItems p) then
       match v with
       | VArr items => forallb (fun item => negb (is_nullish item)) items
       | _ => true
       end
     else true)
    &&
    (if isArray p then
       match v with
       | VArr items =>
           (fix all (l : list value) : bool :=
              match l with
              | [] => true
              | item :: rest => complete schema (pureType p) item && all rest
              end) items
       | _ => true
       end
     else if negb (isScalar (pureType p)) then
       match schema !! pureType p with
       | None => true
       | Some typeObject =>
           if negb (isPlainObject v) then true
           else
             bool_decide
               (map_Forall
                  (fun key type =>
                     match v with
                     | VObj fields =>
                         (fix get (l : list (string * value)) : bool :=
                            match l with
                            | [] => isNullable (parseSchemaType (__type type))
                            | (k, x) :: rest =>
                                if String.eqb k key
                                then complete schema (__type type) x
                                else get rest
                            end) fields
                     | VStr _ =>
                         if String.eqb key "length"
                         then completePrimitive schema (__type type)
                         else isNullable (parseSchemaType (__type type))
                     | _ => isNullable (parseSchemaType (__type type))
                     end = true)
                  typeObject)
       end
     else true).

(** The same for the root: every argument of the operation, read from
    [data], is complete against its type. *)
Definition completeArgs (operationType : Type_) (schema : Schema) (data : value) : bool :=
  match __args operationType with
  | None => true
  | Some args =>
      bool_decide (map_Forall (fun key t =>
                     complete schema t (get_prop data key) = true) args)
  end.

End ValidatorShape.

(** ** Contexts that hold a violation *)

Definition hasViolations (context : ValidationContext) : Prop :=
  validationErrors context <> ∅.

(** ** The promise a callback settles *)

Section BatcherShape.
Context `{GQlessClient}.

Definition settlePromise (s : settle) : nat :=
  match s with
  | Resolve p _ => p
  | Reject p _ => p
  end.

End BatcherShape.

(** ** createGQlessDataProvider.ts *)

Module DataProvider.
Section Provider.
Context `{JSNumber}.

(** The characters of a string, each a string of its own. *)
Fixpoint chars (s : string) : list value :=
  match s with
  | EmptyString => []
  | String c rest => VStr (String c EmptyString) :: chars rest
  end.

(** [{...value}]: the own enumerable properties of [value]; an array and
    a string spread into their indexed items, anything else that is not
    an object into nothing. *)
Definition spread (v : value) : list (string * value) :=
  match v with
  | VObj fields => fields
  | VArr items => imap (fun i item => (pretty i, item)) items
  | VStr s => imap (fun i c => (pretty i, c)) (chars s)
  | _ => []
  end.

(** [UpdateParams] of the core package. *)
Record UpdateParams := { id : value; data : value }.

(** [updateOperation.input]: [{ data: { ...params.data, id: params.id } }] *)
Definition updateOperation_input (params : UpdateParams) : value :=
  VObj [("data", VObj (obj_set (spread (data params)) "id" (id params)))].

(** One entry of [error.graphQLErrors]. *)
Record GraphQLError := { message : string; extensions : value }.

(** What is thrown: a [GQlessError] with its [graphQLErrors] (possibly
    undefined), the two errors of the core package the handler translates
    to, or anything else. *)
Inductive Thrown :=
  | GQlessError (graphQLErrors : option (list GraphQLError))
  | ValidationError (validationErrors : value) (message : string)
  | UnauthorizedError (message : string)
  | OtherError (e : value).

(** [value === "..."] *)
Definition is_string (v : value) (s : string) : bool :=
  match v with
  | VStr s' => String.eqb s' s
  | _ => false
  end.

(** [defaultErrorHandler] never returns; the result is what it throws. *)
Definition defaultErrorHandler (error : Thrown) : Thrown :=
  match error with
  | GQlessError (Some (firstError :: _)) =>
      let extensions :=
        if ToBoolean (extensions firstError) then extensions firstError else VObj [] in
      let _code := get_prop extensions "code" in
      if is_string _code "BAD_USER_INPUT" then
        if ToBoolean (get_prop extensions "validationErrors")
        then ValidationError (get_prop extensions "validationErrors") (message firstError)
        else error
      else if is_string _code "UNAUTHENTICATED" || is_string _code "FORBIDDEN" then
        UnauthorizedError (message firstError)
      else error
  | _ => error
  end.

End Provider.
End DataProvider.

(** ** The fixer with the prototype chain *)

(** What reading a property of a built-in value gives, as far as the
    fixer can tell: a truthy value, a falsy one, or an exception. *)
Inductive BuiltinRead := ReadTruthy | ReadFalsy | ReadThrows.

(** The built-in objects of the host.  The schema, its type objects and
    [__args] are plain objects, so a property they do not have themselves
    is read from [Object.prototype]: [objectMember key] says that
    [Object.prototype] has a member named [key].  Every one of them holds
    a function or, under [__proto__], an object: a truthy value that is
    not a string and has no [__type].  [stringMember], [numberMember] and
    [booleanMember] say the same of the prototypes of strings, numbers
    and booleans.  [builtinRead owner key] is what reading [key] from the
    value of [Object.prototype[owner]] gives. *)
Class JSHost := {
  objectMember : string -> bool;
  stringMember : string -> bool;
  numberMember : string -> bool;
  booleanMember : string -> bool;
  builtinRead : string -> string -> BuiltinRead;
  proto_member : objectMember "__proto__" = true;
}.

Module Chain.

(** The [typeName] handed to [fixValue]: a string, or something that is
    not one (a built-in function, or [undefined] read off one). *)
Inductive TypeName :=
  | TypeString (t : string)
  | NotAString.

(** What the body of a loop finds for one key: nothing truthy, so the key
    is skipped; the type name to fix the property against; or an
    exception while reading. *)
Inductive FieldRead :=
  | Skip
  | Expect (typeName : TypeName)
  | ReadError.

(** [schema[pureType]]: a type of the schema, a member of
    [Object.prototype], or [undefined]. *)
Inductive SchemaRead :=
  | OwnType (typeObject : TypeObject)
  | BuiltinType
  | NoType.

Section Chain.
Context `{JSNumber} `{JSHost}.

(** [args?.[key]] and the test [if (argTypeName)]. *)
Definition readArg (operationType : Type_) (key : string) : FieldRead :=
  match __args operationType with
  | None => Skip
  | Some args =>
      match args !! key with
      | Some t => if String.eqb t "" then Skip else Expect (TypeString t)
      | None => if objectMember key then Expect NotAString else Skip
      end
  end.

(** [typeObject[key]], the test [if (type)] and [type.__type], on a type
    of the schema. *)
Definition readField (typeObject : TypeObject) (key : string) : FieldRead :=
  match typeObject !! key with
  | Some type => Expect (TypeString (__type type))
  | None => if objectMember key then Expect NotAString else Skip
  end.

(** The same where [typeObject] is the member [owner] of
    [Object.prototype]. *)
Definition readBuiltin (owner key : string) : FieldRead :=
  match builtinRead owner key with
  | ReadTruthy => Expect NotAString
  | ReadFalsy => Skip
  | ReadThrows => ReadError
  end.

Definition readSchema (schema : Schema) (pureType : string) : SchemaRead :=
  match schema !! pureType with
  | Some typeObject => OwnType typeObject
  | None => if objectMember pureType then BuiltinType else NoType
  end.

(** [result[key] = x]: under [__proto__] the assignment goes to the
    setter of [Object.prototype] and makes no property. *)
Definition assign (key : string) (x : value) (result : list (string * value))
  : list (string * value) :=
  if String.eqb key "__proto__" then result else (key, x) :: result.

(** [fixValue] as it runs: [None] is the [TypeError] raised when
    [parseSchemaType] is handed something that is not a string.  The
    loops are those of [fixValue] above; what differs is where the type
    of a property comes from. *)
Fixpoint fixValue (v : value) (typeName : TypeName) (schema : Schema) {struct v}
  : option value :=
  if is_nullish v then Some v
  else
    match typeName with
    | NotAString => None
    | TypeString t =>
        let p := parseSchemaType t in
        if isArray p then
          match v with
          | VArr items =>
              VArr <$>
                (fix each (l : list value) : option (list value) :=
                   match l with
                   | [] => Some []
                   | item :: rest =>
                       match fixValue item (TypeString (pureType p)) schema with
                       | Some y => cons y <$> each rest
                       | None => None
                       end
                   end) items
          | _ => Some VUndefined
          end
        else if isScalar (pureType p) then Some (fixScalar v (pureType p))
        else
          match readSchema schema (pureType p) with
          | NoType => Some v
          | found =>
              let read :=
                match found with
                | OwnType typeObject => readField typeObject
                | _ => readBuiltin (pureType p)
                end in
              if negb (isPlainObject v) then Some VUndefined
              else
                match v with
                | VObj fields =>
                    VObj <$>
                      (fix each (l : list (string * value)) :=
                         match l with
                         | [] => Some []
                         | (key, x) :: rest =>
                             match read key with
                             | Skip => each rest
                             | ReadError => None
                             | Expect typeName' =>
                                 match fixValue x typeName' schema with
                                 | Some y => assign key y <$> each rest
                                 | None => None
                                 end
                             end
                         end) fields
                | _ => Some (VObj [])
                end
          end
    end.

(** The loop over the items of an array. *)
Fixpoint fixItems (typeName : TypeName) (schema : Schema) (items : list value)
  : option (list value) :=
  match items with
  | [] => Some []
  | item :: rest =>
      match fixValue item typeName schema with
      | Some y => cons y <$> fixItems typeName schema rest
      | None => None
      end
  end.

(** The loop over the properties of an object, given what is read for a
    key: the loop of [fixValue], and with [readArg] that of
    [fixInputData]. *)
Fixpoint fixFields (read : string -> FieldRead) (schema : Schema)
    (fields : list (string * value)) : option (list (string * value)) :=
  match fields with
  | [] => Some []
  | (key, x) :: rest =>
      match read key with
      | Skip => fixFields read schema rest
      | ReadError => None
      | Expect typeName =>
          match fixValue x typeName schema with
          | Some y => assign key y <$> fixFields read schema rest
          | None => None
          end
      end
  end.

(** [fixInputData] as it runs. *)
Definition fixInputData (data : value) (operationType : Type_) (schema : Schema)
  : option value :=
  if negb (isPlainObject data) then Some data
  else
    match data with
    | VObj fields => VObj <$> fixFields (readArg operationType) schema fields
    | _ => Some (VObj [])
    end.

(** The keys the loops keep, given what they read for a key. *)
Definition kept (read : string -> FieldRead) (key : string) : bool :=
  match read key with
  | Expect _ => negb (String.eqb key "__proto__")
  | _ => false
  end.

(** No property at any depth is named like a member of
    [Object.prototype]. *)
Fixpoint ownNamesOnly (v : value) : bool :=
  match v with
  | VArr items =>
      (fix all (l : list value) : bool :=
         match l with
         | [] => true
         | item :: rest => ownNamesOnly item && all rest
         end) items
  | VObj fields =>
      (fix all (l : list (string * value)) : bool :=
         match l with
         | [] => true
         | (key, x) :: rest => negb (objectMember key) && ownNamesOnly x && all rest
         end) fields
  | _ => true
  end.

End Chain.
End Chain.

(** ** Schemas that stay clear of the built-in prototypes *)

Section Plain.
Context `{JSHost}.

(** [key] is no array index and names no member of [Object.prototype] or
    of the prototype of a string, a number or a boolean: read from a value
    that has no property [key] of its own, it gives [undefined]. *)
Definition plainName (key : string) : bool :=
  negb (objectMember key || stringMember key || numberMember key || booleanMember key)
  && match key with
     | String c _ => negb (Ascii.leb "0" c && Ascii.leb c "9")
     | EmptyString => true
     end.

(** The arguments of the operation and the fields of the types of the
    schema have such names. *)
Definition plainNames (operationType : Type_) (schema : Schema) : bool :=
  match __args operationType with
  | Some args => bool_decide (map_Forall (fun key _ => plainName key = true) args)
  | None => true
  end
  && bool_decide
       (map_Forall (fun _ (typeObject : TypeObject) =>
                      map_Forall (fun key _ => plainName key = true) typeObject)
                   schema).

(** No type name reached from [typeName] by going from an array to its
    items names a member of [Object.prototype].  The name of the items is
    shorter than the name of the array, so the length of [typeName] is
    nesting enough. *)
Fixpoint plainTypeWithin (nesting : nat) (typeName : string) : bool :=
  let p := parseSchemaType typeName in
  negb (objectMember (pureType p))
  && (if isArray p then
        match nesting with
        | 0 => true
        | S n => plainTypeWithin n (pureType p)
        end
      else true).

Definition plainType (typeName : string) : bool :=
  plainTypeWithin (String.length typeName) typeName.

(** The same of every type name the operation gives an argument and the
    schema gives a field. *)
Definition plainTypes (operationType : Type_) (schema : Schema) : bool :=
  match __args operationType with
  | Some args => bool_decide (map_Forall (fun _ t => plainType t = true) args)
  | None => true
  end
  && bool_decide
       (map_Forall (fun _ (typeObject : TypeObject) =>
                      map_Forall (fun _ type => plainType (__type type) = true) typeObject)
                   schema).

End Plain.

(** ** A runtime for worked examples *)

(** The runtime restricted to NaN and the integers, with decimal integer
    literals as the numeric strings.  On this fragment [Math.round] is the
    identity and [Number.isInteger] holds of everything but NaN. *)
Module IntRuntime.

Fixpoint digits (s : string) (acc : N) : option N :=
  match s with
  | "" => Some acc
  | String c rest =>
      let d := N_of_ascii c in
      if ((48 <=? d) && (d <=? 57))%N then digits rest (10 * acc + (d - 48))%N
      else None
  end.

Definition int_of_string (s : string) : option Z :=
  match s with
  | "" => Some 0%Z
  | String "-" rest =>
      if String.eqb rest "" then None else (fun n => (- Z.of_N n)%Z) <$> digits rest 0
  | _ => Z.of_N <$> digits s 0
  end.

Definition int_numbers : JSNumber := {|
  number := option Z;
  num_nan := None;
  num_of_nat n := Some (Z.of_nat n);
  num_is_integer n := bool_decide (is_Some n);
  num_round n := n;
  num_of_string := int_of_string;
  num_to_string n := match n with Some z => pretty z | None => "NaN" end;
  num_truthy n := match n with Some z => negb (z =? 0)%Z | None => false end;
|}.

End IntRuntime.

(** ** Worked examples *)

Module Examples.
#[local] Existing Instance IntRuntime.int_numbers.

Definition num (z : Z) : value := VNum (Some z).

Definition schema : Schema :=
  {[ "UserInput" :=
       {[ "name" := {| __type := "String!"; __args := None |};
          "age" := {| __type := "Int"; __args := None |};
          "tags" := {| __type := "[String!]"; __args := None |};
          "role" := {| __type := "Role"; __args := None |};
          "friend" := {| __type := "UserInput"; __args := None |} ]} ]}.

Definition userCreate : Type_ :=
  {| __type := "User";
     __args := Some {[ "data" := "UserInput!"; "id" := "ID!" ]} |}.

Definition input : value :=
  VObj [("id", num 7); ("extra", VBool true);
        ("data",
         VObj [("name", num 3); ("age", VStr "42"); ("zzz", VNull);
               ("tags", VArr [VStr "a"; VNull; num 1]);
               ("role", VStr "ADMIN");
               ("friend", VObj [("age", VStr "x"); ("q", VNull)])])].

(** A client whose functions are numbered queries: query [f] answers
    [100 + f], and fails from number 10 on; a combined call fails as soon
    as one of its queries does.  The state counts the calls.  A failure
    is answered sooner than a result. *)
Definition queries : GQlessClient := {|
  RequestFunc := nat;
  result := nat;
  error := string;
  type_error := "TypeError";
  client := nat;
  resolved_all c fs :=
    (if forallb (fun f => f <? 10) fs then inl (Nat.add 100 <$> fs)
     else inr "batch failed", S c);
  resolved c f := (if f <? 10 then inl (100 + f) else inr "query failed", S c);
  answerTime c f := if f <? 10 then 2 else 1;
|}.
#[local] Existing Instance queries.

Definition entry (f p : nat) : RequestEntry := {| func := f; promise := p |}.

Definition pending (reqs : list RequestEntry) : Batcher :=
  {| requests := reqs; hTimeout := None |}.

End Examples.

(** ** Further worked examples *)

Module Scenarios.
#[local] Existing Instance IntRuntime.int_numbers.
Import Examples.

(** Input that already has the shape [userCreate] asks for. *)
Definition wellTyped : value :=
  VObj [("id", VStr "7");
        ("data",
         VObj [("name", VStr "Ann"); ("age", num 42);
               ("tags", VArr [VStr "a"; VStr "b"]);
               ("role", VStr "ADMIN")])].

(** The members of [Object.prototype], and of the prototypes of the
    primitives, in Node.js. *)
Definition objectPrototype : list string :=
  ["constructor"; "__defineGetter__"; "__defineSetter__"; "hasOwnProperty";
   "__lookupGetter__"; "__lookupSetter__"; "isPrototypeOf";
   "propertyIsEnumerable"; "toString"; "valueOf"; "__proto__"; "toLocaleString"].

Definition stringPrototype : list string :=
  ["length"; "constructor"; "anchor"; "at"; "big"; "blink"; "bold"; "charAt";
   "charCodeAt"; "codePointAt"; "concat"; "endsWith"; "fontcolor"; "fontsize";
   "fixed"; "includes"; "indexOf"; "italics"; "lastIndexOf"; "link";
   "localeCompare"; "match"; "matchAll"; "normalize"; "padEnd"; "padStart";
   "repeat"; "replace"; "replaceAll"; "search"; "slice"; "small"; "split";
   "strike"; "sub"; "substr"; "substring"; "sup"; "startsWith"; "toString";
   "trim"; "trimStart"; "trimLeft"; "trimEnd"; "trimRight";
   "toLocaleLowerCase"; "toLocaleUpperCase"; "toLowerCase"; "toUpperCase";
   "valueOf"; "isWellFormed"; "toWellFormed"].

Definition numberPrototype : list string :=
  ["constructor"; "toExponential"; "toFixed"; "toPrecision"; "toString";
   "valueOf"; "toLocaleString"].

Definition booleanPrototype : list string := ["constructor"; "toString"; "valueOf"].

(** What every function has or inherits, [caller] and [arguments]
    apart. *)
Definition functionMembers : list string :=
  ["name"; "call"; "apply"; "bind"] ++ objectPrototype.

(** The members of [Object.prototype] that are functions of at least one
    parameter: their [length] is not zero. *)
Definition withParameters : list string :=
  ["constructor"; "__defineGetter__"; "__defineSetter__"; "hasOwnProperty";
   "__lookupGetter__"; "__lookupSetter__"; "isPrototypeOf"; "propertyIsEnumerable"].

(** The properties of the function [Object] itself. *)
Definition objectStatics : list string :=
  ["prototype"; "assign"; "create"; "defineProperties"; "defineProperty"; "entries";
   "freeze"; "fromEntries"; "getOwnPropertyDescriptor"; "getOwnPropertyDescriptors";
   "getOwnPropertyNames"; "getOwnPropertySymbols"; "getPrototypeOf"; "groupBy";
   "hasOwn"; "is"; "isExtensible"; "isFrozen"; "isSealed"; "keys";
   "preventExtensions"; "seal"; "setPrototypeOf"; "values"].

(** [__proto__] read off a plain object is [Object.prototype], whose own
    [__proto__] is [null]; the other members of [Object.prototype] are
    functions, and reading [caller] or [arguments] off one of them
    throws. *)
Definition node : JSHost := {|
  objectMember key := bool_decide (key ∈ objectPrototype);
  stringMember key := bool_decide (key ∈ stringPrototype);
  numberMember key := bool_decide (key ∈ numberPrototype);
  booleanMember key := bool_decide (key ∈ booleanPrototype);
  builtinRead owner key :=
    if String.eqb owner "__proto__" then
      if bool_decide (key ∈ objectPrototype) && negb (String.eqb key "__proto__")
      then ReadTruthy else ReadFalsy
    else if bool_decide (key ∈ ["caller"; "arguments"]) then ReadThrows
    else if bool_decide (key ∈ functionMembers) then ReadTruthy
    else if String.eqb key "length" then
      if bool_decide (owner ∈ withParameters) then ReadTruthy else ReadFalsy
    else if String.eqb owner "constructor" && bool_decide (key ∈ objectStatics)
    then ReadTruthy
    else ReadFalsy;
  proto_member := eq_refl;
|}.

(** An operation with the one argument [id]. *)
Definition userById : Type_ :=
  {| __type := "User"; __args := Some {[ "id" := "ID!" ]} |}.

(** Input with a property named like a member of [Object.prototype]. *)
Definition shadowing : value := VObj [("toString", VNull); ("id", num 1)].

(** An operation that declares no arguments. *)
Definition ping : Type_ := {| __type := "Boolean"; __args := None |}.

(** A client that does not keep to one result per function: in state
    [true] the combined call loses the last result, in state [false] it
    returns one result too many. *)
Definition sloppy : GQlessClient := {|
  RequestFunc := nat;
  result := nat;
  error := string;
  type_error := "TypeError";
  client := bool;
  resolved_all c fs :=
    (inl (if c then Nat.add 100 <$> removelast fs else (Nat.add 100 <$> fs) ++ [0]), c);
  resolved c f := (inl (100 + f), c);
  answerTime c f := 0;
|}.

(** Two entries waiting in a batcher of that client. *)
Definition sloppyQueue : @Batcher sloppy :=
  @Build_Batcher sloppy
    [@Build_RequestEntry sloppy 1 0; @Build_RequestEntry sloppy 2 1] None.

(** Two queries, the second one failing, flushed together, and a third
    one submitted after that. *)
Definition burst : list (@event queries) :=
  [@Submit queries 1; @Submit queries 11; @TimerFires queries; @Submit queries 3].

(** Two queries for one window. *)
Definition window : list (@RequestFunc queries) := [1; 2].

(** The fields of [UserInput] in the schema of the examples. *)
Definition userInputFields : TypeObject :=
  {[ "name" := {| __type := "String!"; __args := None |};
     "age" := {| __type := "Int"; __args := None |};
     "tags" := {| __type := "[String!]"; __args := None |};
     "role" := {| __type := "Role"; __args := None |};
     "friend" := {| __type := "UserInput"; __args := None |} ]}.

End Scenarios.

(** * Properties *)

(** ** The input fixer *)

Section FixerFacts.
Context `{JSNumber}.

(** Induction that reaches the elements of arrays and the property values
    of objects. *)
Lemma value_nested_ind (P : value -> Prop) :
  P VUndefined -> P VNull ->
  (forall b, P (VBool b)) -> (forall n, P (VNum n)) -> (forall s, P (VStr s)) ->
  (forall items, Forall P items -> P (VArr items)) ->
  (forall fields, Forall (fun kv => P kv.2) fields -> P (VObj fields)) ->
  forall v, P v.
Proof.
  intros Hu Hn Hb Hnum Hs Ha Ho.
  fix IH 1. intros [| |b|n|s|items|fields].
  - exact Hu.
  - exact Hn.
  - apply Hb.
  - apply Hnum.
  - apply Hs.
  - apply Ha. induction items as [|x xs IHxs]; constructor; [apply IH | exact IHxs].
  - apply Ho. induction fields as [|[k x] xs IHxs]; constructor; [apply IH | exact IHxs].
Qed.

Lemma fixFields_cons typeObject schema k x rest :
  omap (fixField typeObject schema) ((k, x) :: rest) =
  match typeObject !! k with
  | Some type =>
      (k, fixValue x (__type type) schema) :: omap (fixField typeObject schema) rest
  | None => omap (fixField typeObject schema) rest
  end.
Proof.
  cbn [omap list_omap]. unfold fixField at 1. cbn [fst snd].
  by destruct (typeObject !! k).
Qed.

Lemma fixArgs_cons operationType schema k x rest :
  omap (fixArg operationType schema) ((k, x) :: rest) =
  match argTypeName operationType k with
  | Some t => (k, fixValue x t schema) :: omap (fixArg operationType schema) rest
  | None => omap (fixArg operationType schema) rest
  end.
Proof.
  cbn [omap list_omap]. unfold fixArg at 1. cbn [fst snd].
  by destruct (argTypeName operationType k).
Qed.

(** [fixValue] with its two loops written as [map] and [omap]. *)
Lemma fixValue_eq v typeName schema :
  fixValue v typeName schema =
  if is_nullish v then v
  else
    let p := parseSchemaType typeName in
    if isArray p then
      match v with
      | VArr items => VArr (map (fun item => fixValue item (pureType p) schema) items)
      | _ => VUndefined
      end
    else if isScalar (pureType p) then fixScalar v (pureType p)
    else
      match schema !! pureType p with
      | None => v
      | Some typeObject =>
          if negb (isPlainObject v) then VUndefined
          else match v with
               | VObj fields => VObj (omap (fixField typeObject schema) fields)
               | _ => VObj []
               end
      end.
Proof.
  destruct v as [| |b|n|s|items|fields]; try reflexivity.
  cbn [fixValue is_nullish]. cbv zeta.
  destruct (isArray _); [reflexivity|].
  destruct (isScalar _); [reflexivity|].
  destruct (schema !! _) as [typeObject|]; [|reflexivity].
  cbn [isPlainObject is_nullish is_array negb andb].
  f_equal. induction fields as [|[k x] xs IH]; [reflexivity|].
  rewrite fixFields_cons. destruct (typeObject !! k); by rewrite IH.
Qed.

Lemma fixValue_nullish v typeName schema :
  is_nullish v = true -> fixValue v typeName schema = v.
Proof. by destruct v. Qed.


Lemma fixValue_scalar v typeName schema :
  is_nullish v = false -> isArray (parseSchemaType typeName) = false ->
  isScalar (pureType (parseSchemaType typeName)) = true ->
  fixValue v typeName schema = fixScalar v (pureType (parseSchemaType typeName)).
Proof. intros Hv Ha Hs. rewrite fixValue_eq, Hv. cbv zeta. by rewrite Ha, Hs. Qed.



(** The five scalar names, one after the other. *)
Lemma isScalar_cases t :
  isScalar t = true ->
  t = "Int" \/ t = "Float" \/ t = "String" \/ t = "Boolean" \/ t = "ID".
Proof.
  unfold isScalar, scalars. intros Hs%bool_decide_eq_true.
  repeat (apply elem_of_cons in Hs as [->|Hs]); auto 6.
  by apply elem_of_nil in Hs.
Qed.

(** A scalar comes out of [fixScalar] as a number, a string or a boolean. *)
Lemma fixScalar_native v t :
  isScalar t = true ->
  match fixScalar v t with
  | VNum _ | VStr _ | VBool _ => True
  | _ => False
  end.
Proof.
  intros [->|[->|[->|[->| ->]]]]%isScalar_cases;
    unfold fixScalar; cbn; destruct v; try done; by destruct (num_is_integer _).
Qed.





(** C2. What [fixInputData] returns unchanged is a root that is null,
    undefined or an array.  A number, a string or a boolean passes
    [isPlainObject], the loop finds no argument in it, and the empty object
    comes back in its place. *)
Theorem fixInputData_primitive_root (n : number) (s : string) (b : bool)
    (T : Type_) (S : Schema) :
  fixInputData (VNum n) T S = VObj [] /\ fixInputData (VNum n) T S <> VNum n /\
  fixInputData (VStr s) T S = VObj [] /\ fixInputData (VBool b) T S = VObj [].
Proof. done. Qed.

Lemma fixInputData_not_plain data T S :
  isPlainObject data = false -> fixInputData data T S = data.
Proof. intros Hd. unfold fixInputData. by rewrite Hd. Qed.

Lemma pruned_array schema typeName items :
  isArray (parseSchemaType typeName) = true ->
  pruned schema typeName (VArr items) =
  forallb (pruned schema (pureType (parseSchemaType typeName))) items.
Proof. intros Ha. cbn [pruned]. cbv zeta. by rewrite Ha. Qed.

(** A value without properties or items is pruned at any type. *)
Lemma pruned_leaf schema typeName v :
  match v with VArr _ | VObj _ => False | _ => True end ->
  pruned schema typeName v = true.
Proof.
  destruct v; try done; intros _; cbn [pruned]; cbv zeta;
    destruct (isArray _); try done; destruct (isScalar _); try done;
    by destruct (schema !! _).
Qed.

Lemma pruned_opaque schema typeName v :
  isArray (parseSchemaType typeName) = false ->
  isScalar (pureType (parseSchemaType typeName)) = false ->
  schema !! pureType (parseSchemaType typeName) = None ->
  pruned schema typeName v = true.
Proof. intros Ha Hs Hty. destruct v; cbn [pruned]; cbv zeta; by rewrite Ha, Hs, Hty. Qed.

Lemma pruned_empty schema typeName :
  isArray (parseSchemaType typeName) = false ->
  isScalar (pureType (parseSchemaType typeName)) = false ->
  pruned schema typeName (VObj []) = true.
Proof. intros Ha Hs. cbn [pruned]. cbv zeta. rewrite Ha, Hs. by destruct (schema !! _). Qed.

(** C7. Scalar coercion.  To [Int]: an integral number is kept, any other
    value is converted to a number and rounded.  A string becomes a number
    under [Int] and [Float].  Under [Boolean] the result is the boolean the
    value counts as.  A number under [Float], a string under [String] or
    [ID] and a boolean under [Boolean] come back as they are. *)
Theorem fixScalar_coercion (v : value) (n : number) (s : string) (b : bool) :
  fixScalar v "Int" =
    (if is_integral v then v else VNum (num_round (ToNumber v))) /\
  fixScalar (VStr s) "Int" = VNum (num_round (num_of_string s)) /\
  fixScalar (VStr s) "Float" = VNum (num_of_string s) /\
  fixScalar v "Boolean" = VBool (ToBoolean v) /\
  fixScalar v "Float" = (match v with VNum _ => v | _ => VNum (ToNumber v) end) /\
  fixScalar (VNum n) "Float" = VNum n /\
  fixScalar (VStr s) "String" = VStr s /\
  fixScalar (VStr s) "ID" = VStr s /\
  fixScalar (VBool b) "Boolean" = VBool b.
Proof.
  repeat split; try reflexivity.
  - unfold fixScalar, is_integral. cbn. by destruct v.
  - by destruct v.
Qed.

End FixerFacts.

(** ** A name the input shares with [Object.prototype] *)

Section InheritedName.
#[local] Existing Instance IntRuntime.int_numbers.
#[local] Existing Instance Scenarios.node.
Import Examples Scenarios.

(** C3. Pruning fails on a property named like a member of
    [Object.prototype].  Where the type of the argument is looked up the
    name finds that member, and a property holding [null] is copied to the
    result though the operation has no such argument: from
    [{"toString": null, "id": 1}] and an operation whose one argument is
    [id], [fixInputData] returns [{"toString": null, "id": "1"}]. *)
Theorem fixInputData_keeps_inherited_name :
  argTypeName userById "toString" = None /\
  Chain.fixInputData shadowing userById schema
    = Some (VObj [("toString", VNull); ("id", VStr "1")]) /\
  prunedArgs userById schema (VObj [("toString", VNull); ("id", VStr "1")]) = false.
Proof. repeat split; reflexivity. Qed.

(** Holding anything else, such a property makes the fixer throw. *)
Example fixInputData_inherited_name_throws :
  Chain.fixInputData (VObj [("toString", VStr "x"); ("id", num 1)]) userById schema = None.
Proof. reflexivity. Qed.

(** A type named like a member of [Object.prototype] is found in every
    schema: the fields are read off the function of that name. *)
Example fixValue_inherited_type :
  Chain.fixValue (VObj [("length", VStr "n"); ("size", num 1); ("name", VNull)])
    (Chain.TypeString "toString") schema
  = Some (VObj [("name", VNull)]) /\
  Chain.fixValue (VObj [("length", VStr "n")]) (Chain.TypeString "hasOwnProperty") schema
  = None.
Proof. split; reflexivity. Qed.

End InheritedName.

(** ** The loops over an object, as the source writes them *)

Section LoopFacts.
Context `{JSNumber}.

Lemma obj_get_NoDup fields k x :
  NoDup fields.*1 -> (k, x) ∈ fields -> obj_get fields k = x.
Proof.
  induction fields as [|[k' x'] rest IH]; intros Hnd Hin; [by apply elem_of_nil in Hin|].
  cbn in Hnd. apply NoDup_cons in Hnd as [Hk' Hnd]. cbn [obj_get].
  apply elem_of_cons in Hin as [[= -> ->]|Hin].
  - by rewrite String.eqb_refl.
  - destruct (String.eqb_spec k' k) as [->|_]; [|by apply IH].
    exfalso. apply Hk'. apply list_elem_of_fmap. by exists (k, x).
Qed.

Lemma obj_set_fresh fields k y :
  k ∉ fields.*1 -> obj_set fields k y = fields ++ [(k, y)].
Proof.
  induction fields as [|[k' x'] rest IH]; intros Hk; [done|].
  cbn in Hk. apply not_elem_of_cons in Hk as [Hne Hk]. cbn [obj_set].
  destruct (String.eqb_spec k' k) as [->|_]; [done|]. by rewrite IH.
Qed.

(** On an object (distinct property names) the loop with [value[key]] and
    [result[key] = ...] is a filtering map over the properties. *)
Lemma forInAssign_omap body fields :
  NoDup fields.*1 ->
  forInAssign body fields =
  omap (fun kv => (fun y => (kv.1, y)) <$> body kv.1 kv.2) fields.
Proof.
  intros Hnd. unfold forInAssign.
  set (f := fun kv : string * value => (fun y => (kv.1, y)) <$> body kv.1 kv.2).
  enough (Hgen : forall seen todo, fields = seen ++ todo ->
    foldl (fun result kv =>
             match body kv.1 (obj_get fields kv.1) with
             | Some y => obj_set result kv.1 y
             | None => result
             end) (omap f seen) todo = omap f (seen ++ todo)).
  { by apply (Hgen [] fields). }
  intros seen todo. revert seen.
  induction todo as [|[k x] rest IH]; intros seen Heq.
  - by rewrite app_nil_r.
  - cbn [foldl fst].
    assert (Hget : obj_get fields k = x).
    { apply obj_get_NoDup; [done|]. rewrite Heq. set_solver. }
    rewrite Hget.
    assert (Hfresh : k ∉ (omap f seen).*1).
    { intros [[k' y] [Hk Hin]]%list_elem_of_fmap. cbn in Hk. subst k'.
      apply list_elem_of_omap in Hin as [[k0 x0] [Hin0 Hf]].
      unfold f in Hf. cbn in Hf. destruct (body k0 x0); [|done]. injection Hf as -> _.
      rewrite Heq, fmap_app in Hnd. apply NoDup_app in Hnd as (_ & Hdis & _).
      apply (Hdis k).
      - apply list_elem_of_fmap. by exists (k, x0).
      - cbn. left. }
    replace (seen ++ (k, x) :: rest) with ((seen ++ [(k, x)]) ++ rest)
      by (by rewrite <- app_assoc).
    rewrite <- IH by (by rewrite <- app_assoc).
    f_equal. rewrite omap_app. cbn [omap list_omap].
    change (f (k, x)) with ((fun y => (k, y)) <$> body k x).
    destruct (body k x) as [y|]; cbn; [by apply obj_set_fresh | by rewrite app_nil_r].
Qed.

(** The loop of [fixValue] is the one it is modelled by. *)
Lemma fixValue_loop typeObject schema fields :
  NoDup fields.*1 ->
  forInAssign (fun key x =>
                 (fun type => fixValue x (__type type) schema) <$> typeObject !! key)
              fields
  = omap (fixField typeObject schema) fields.
Proof.
  intros Hnd. rewrite forInAssign_omap by done.
  apply list_omap_ext, Forall2_same_length_lookup_2; [done|].
  intros i [k x] [k' x'] Hi Hi'. rewrite Hi in Hi'. injection Hi' as <- <-.
  unfold fixField. cbn. by destruct (typeObject !! k).
Qed.

(** So is the loop of [fixInputData]. *)
Lemma fixInputData_loop operationType schema fields :
  NoDup fields.*1 ->
  forInAssign (fun key x =>
                 (fun t => fixValue x t schema) <$> argTypeName operationType key)
              fields
  = omap (fixArg operationType schema) fields.
Proof.
  intros Hnd. rewrite forInAssign_omap by done.
  apply list_omap_ext, Forall2_same_length_lookup_2; [done|].
  intros i [k x] [k' x'] Hi Hi'. rewrite Hi in Hi'. injection Hi' as <- <-.
  unfold fixArg. cbn. by destruct (argTypeName operationType k).
Qed.

End LoopFacts.

(** ** The required-field validator *)

Section ValidatorFacts.
Context `{JSNumber}.

Lemma validationErrors_report fieldPath context :
  validationErrors (report fieldPath context) =
  <[fieldPath := requiredErrorMessage context]> (validationErrors context).
Proof. reflexivity. Qed.

Lemma requiredErrorMessage_report fieldPath context :
  requiredErrorMessage (report fieldPath context) = requiredErrorMessage context.
Proof. reflexivity. Qed.

Lemma size_insert_pos (errors : ValidationErrors) fieldPath message :
  bool_decide (0 < size (<[fieldPath := message]> errors)) = true.
Proof.
  apply bool_decide_eq_true.
  pose proof (insert_non_empty errors fieldPath message) as Hne.
  apply map_size_non_empty_iff in Hne. lia.
Qed.

(** A scalar type name is a bare, nullable name. *)
Lemma scalar_parse t :
  isScalar t = true ->
  parseSchemaType t =
  {| pureType := t; isNullable := true; isArray := false; nullableItems := true |}.
Proof. by intros [->|[->|[->|[->| ->]]]]%isScalar_cases. Qed.

(** Against a scalar type name nothing is reported, whatever the value. *)
Lemma validateValue_scalar v fieldPath t schema context :
  isScalar t = true -> validateValue v fieldPath t schema context = context.
Proof.
  intros Hs. destruct v; cbn [validateValue]; rewrite (scalar_parse t Hs); cbn;
    by rewrite Hs.
Qed.

(** C8. Path convention: [{name: null}] against an operation whose one
    argument [name] has a non-nullable type gives a mapping with the empty
    path as its only key; the name of the argument is not part of it. *)
Theorem validate_required_argument_empty_path
    (name typeName opType message : string) (schema : Schema) :
  isNullable (parseSchemaType typeName) = false ->
  validateRequiredInputData (VObj [(name, VNull)])
    {| __type := opType; __args := Some {[ name := typeName ]} |} schema message
  = Some {[ "" := message ]}.
Proof.
  intros Hreq. unfold validateRequiredInputData.
  cbn [isPlainObject is_nullish is_array negb andb __args].
  rewrite map_fold_singleton.
  cbn [get_prop obj_get]. rewrite String.eqb_refl.
  cbn [validateValue]. cbv zeta. rewrite Hreq. cbn [negb andb is_nullish].
  rewrite validationErrors_report. cbn [validationErrors requiredErrorMessage].
  by rewrite size_insert_pos, insert_empty.
Qed.

(** C9. Null items: [[1, null, 3]] passed as an argument whose type is an
    array of scalars with non-nullable items gives one violation, at path
    ["1"].  The items after a null one are still looked at: with
    [[1, null, null]] the violations are at ["1"] and ["2"]. *)
Theorem validate_array_null_item
    (name typeName opType message : string) (schema : Schema) (n1 n3 : number) :
  isArray (parseSchemaType typeName) = true ->
  nullableItems (parseSchemaType typeName) = false ->
  isScalar (pureType (parseSchemaType typeName)) = true ->
  validateRequiredInputData (VObj [(name, VArr [VNum n1; VNull; VNum n3])])
    {| __type := opType; __args := Some {[ name := typeName ]} |} schema message
  = Some {[ "1" := message ]} /\
  validateRequiredInputData (VObj [(name, VArr [VNum n1; VNull; VNull])])
    {| __type := opType; __args := Some {[ name := typeName ]} |} schema message
  = Some (<[ "2" := message ]> {[ "1" := message ]}).
Proof.
  intros Ha Hitems Hs. unfold validateRequiredInputData.
  cbn [isPlainObject is_nullish is_array negb andb __args].
  rewrite !map_fold_singleton.
  cbn [get_prop obj_get]. rewrite String.eqb_refl.
  cbn [validateValue]. cbv zeta. rewrite Ha, Hitems.
  cbn [is_nullish negb andb]. rewrite andb_false_r.
  rewrite (scalar_parse _ Hs). cbn [isNullable isArray nullableItems pureType negb andb].
  rewrite Hs. cbn [negb reportNullItems is_nullish].
  rewrite !validationErrors_report. cbn [validationErrors requiredErrorMessage].
  rewrite !size_insert_pos, insert_empty. done.
Qed.

(** C10. A root that is null, undefined or an array is not validated: the
    result is the no-errors one, whatever arguments the operation
    requires. *)
Theorem validate_non_object_root (items : list value) (operationType : Type_)
    (schema : Schema) (message : string) :
  validateRequiredInputData VNull operationType schema message = None /\
  validateRequiredInputData VUndefined operationType schema message = None /\
  validateRequiredInputData (VArr items) operationType schema message = None.
Proof. done. Qed.

End ValidatorFacts.

(** ** The query batcher *)

Section BatcherFacts.
Context `{GQlessClient}.

Lemma deliver_in_range (reqs : list RequestEntry) (results : list result) i :
  i + length results <= length reqs ->
  deliver reqs results i =
  (zip_with (fun req res => Resolve (promise req) res) (drop i reqs) results, None).
Proof.
  revert i. induction results as [|res rest IH]; intros i Hlen.
  - cbn. by destruct (drop i reqs).
  - cbn [deliver]. cbn [length] in Hlen.
    destruct (reqs !! i) as [req|] eqn:Hi.
    2:{ apply lookup_ge_None in Hi. lia. }
    rewrite IH by lia.
    by rewrite (drop_S _ _ _ Hi).
Qed.

Lemma insertByTime_Permutation x l : insertByTime x l ≡ₚ x :: l.
Proof.
  induction l as [|y rest IH]; [done|]. cbn [insertByTime].
  destruct (x.1 <=? y.1); [done|]. rewrite IH. apply Permutation_swap.
Qed.

Lemma byTime_Permutation l : byTime l ≡ₚ l.
Proof.
  unfold byTime. induction l as [|x rest IH]; [done|].
  cbn [foldr]. by rewrite insertByTime_Permutation, IH.
Qed.

Lemma clientBefore_cons req rest i c :
  clientBefore (req :: rest) (S i) c = clientBefore rest i (resolved c (func req)).2.
Proof. reflexivity. Qed.

(** The calls of the retries, in the order they are issued. *)
Lemma retryCalls_callbacks (reqs : list RequestEntry) c :
  (retryCalls reqs c).1.*2 =
  imap (fun i req => settleWith req (resolved (clientBefore reqs i c) (func req)).1) reqs.
Proof.
  revert c. induction reqs as [|req rest IH]; intros c; [done|].
  cbn [retryCalls imap]. destruct (resolved c (func req)) as [outcome c1] eqn:Hr.
  specialize (IH c1). destruct (retryCalls rest c1) as [timed c2].
  cbn [fst snd fmap list_fmap] in *. rewrite IH. f_equal.
  - unfold clientBefore. cbn. by rewrite Hr.
  - apply imap_ext. intros i r _. unfold compose. rewrite clientBefore_cons. by rewrite Hr.
Qed.

Lemma retryEach_callbacks (reqs : list RequestEntry) c :
  (retryEach reqs c).1 ≡ₚ
  imap (fun i req => settleWith req (resolved (clientBefore reqs i c) (func req)).1) reqs.
Proof.
  unfold retryEach. pose proof (retryCalls_callbacks reqs c) as Hc.
  destruct (retryCalls reqs c) as [timed c']. cbn [fst snd] in *.
  by rewrite byTime_Permutation, Hc.
Qed.

(** C4. A combined call that succeeds with as many results as there are
    entries is handed out by position: the callbacks called are the
    [resolve] of every entry, in order, entry number [i] with result
    number [i]. *)
Theorem runRequests_positional (b : Batcher) (c c1 : client) (results : list result) :
  resolved_all c (func <$> requests b) = (inl results, c1) ->
  length results = length (requests b) ->
  (runRequests b c).2 =
    zip_with (fun req res => Resolve (promise req) res) (requests b) results /\
  forall i req res,
    requests b !! i = Some req -> results !! i = Some res ->
    (runRequests b c).2 !! i = Some (Resolve (promise req) res).
Proof.
  intros Hall Hlen.
  assert (Hcalls : (runRequests b c).2 =
    zip_with (fun req res => Resolve (promise req) res) (requests b) results).
  { unfold runRequests. rewrite Hall, deliver_in_range by (cbn; lia). done. }
  split; [exact Hcalls|].
  intros i req res Hreq Hres. rewrite Hcalls, lookup_zip_with, Hreq. cbn. by rewrite Hres.
Qed.

(** C5. When the combined call fails: a queue of one entry has that entry
    rejected with the error of the combined call; a longer queue has every
    function retried on its own, and the callbacks called are, whatever
    order the answers come in, one per entry: the [resolve] of the entry with
    the result of its own retry if that retry succeeded, its [reject] with
    the error of its own retry if it failed.  What the retry of another
    entry does has no part in it. *)
Theorem runRequests_combined_failure (b : Batcher) (c c1 : client) (err : error) :
  resolved_all c (func <$> requests b) = (inr err, c1) ->
  (forall req, requests b = [req] -> (runRequests b c).2 = [Reject (promise req) err]) /\
  (length (requests b) <> 1 ->
   (runRequests b c).2 ≡ₚ
     imap (fun i req =>
             match (resolved (clientBefore (requests b) i c1) (func req)).1 with
             | inl r => Resolve (promise req) r
             | inr reqErr => Reject (promise req) reqErr
             end) (requests b)).
Proof.
  intros Hall. split.
  - intros req Hone. unfold runRequests. rewrite Hall, Hone. done.
  - intros Hmany. unfold runRequests. rewrite Hall. unfold onError.
    destruct (Nat.eqb_spec (length (requests b)) 1) as [|_]; [done|].
    pose proof (retryEach_callbacks (requests b) c1) as Hcalls.
    destruct (retryEach (requests b) c1) as [calls c2]. cbn [fst snd] in *.
    exact Hcalls.
Qed.

Lemma onTimeout_requests (b : Batcher) c :
  requests (onTimeout b c).1.1 = [] /\ hTimeout (onTimeout b c).1.1 = None.
Proof.
  unfold onTimeout, runRequests. cbn [requests hTimeout].
  destruct (resolved_all c _) as [[results|err] c1].
  - destruct (deliver _ _ _) as [calls [e|]]; [|done].
    by destruct (onError _ _ _).
  - by destruct (onError _ _ _).
Qed.

Lemma step_TimerFires_armed (w : World) u :
  hTimeout (batcher w) = Some u ->
  requests (batcher (step w TimerFires)) = [] /\
  hTimeout (batcher (step w TimerFires)) = None /\
  cycles (step w TimerFires) = cycles w ++ [requests (batcher w)] /\
  promises (step w TimerFires) = promises w.
Proof.
  intros Harmed. cbn [step]. rewrite Harmed.
  pose proof (onTimeout_requests (batcher w) (gqlessClient w)) as [Hr Ht].
  destruct (onTimeout _ _) as [[b' c'] calls]. done.
Qed.

Lemma step_TimerFires_idle (w : World) :
  hTimeout (batcher w) = None -> step w TimerFires = w.
Proof. intros Hidle. cbn [step]. by rewrite Hidle. Qed.





End BatcherFacts.

(** ** The theorems at work *)

Section Worked.
#[local] Existing Instance IntRuntime.int_numbers.
#[local] Existing Instance Examples.queries.
Import Examples.

(** Unknown properties go, scalars are coerced, the enum-like [role] is
    left alone, and [friend] is fixed like its parent. *)
Example fixInputData_input :
  fixInputData input userCreate schema =
  VObj [("id", VStr "7");
        ("data",
         VObj [("name", VStr "3"); ("age", num 42);
               ("tags", VArr [VStr "a"; VNull; VStr "1"]);
               ("role", VStr "ADMIN");
               ("friend", VObj [("age", VNum None)])])].
Proof. reflexivity. Qed.

Example fixInputData_number_5 :
  fixInputData (num 5) userCreate schema = VObj [].
Proof. reflexivity. Qed.

(** [data] lacks [name], its second tag is null, and [id] is missing: the
    paths leave the argument names out. *)
Example validateRequiredInputData_paths :
  validateRequiredInputData
    (VObj [("data", VObj [("tags", VArr [VStr "a"; VNull])])])
    userCreate schema "Required"
  = Some {[ "name" := "Required"; "tags.1" := "Required"; "" := "Required" ]}.
Proof. reflexivity. Qed.

(** Two queries in one window; the combined call fails because of the
    second, and each is settled by its own retry, the failing one first
    because its answer comes first. *)
Example runRequests_retry :
  (runRequests (pending [entry 1 0; entry 11 1]) 0).2 =
  [Reject 1 "query failed"; Resolve 0 101].
Proof. reflexivity. Qed.

(** The third submission comes after the timer fired: it is not in the
    queue that was taken, and it waits with a timer of its own. *)
Example run_three_submissions :
  let w := run [Submit 1; Submit 2; TimerFires; Submit 3] (init 0) in
  cycles w = [[entry 1 0; entry 2 1]] /\
  batcher w = {| requests := [entry 3 2]; hTimeout := Some () |} /\
  settled w = [Resolve 0 101; Resolve 1 102].
Proof. repeat split; reflexivity. Qed.


Lemma validate_required_argument_empty_path_witness :
  isNullable (parseSchemaType "String!") = false /\
  validateRequiredInputData (VObj [("name", VNull)])
    {| __type := "User"; __args := Some {[ "name" := "String!" ]} |} schema "Required"
  = Some {[ "" := "Required" ]}.
Proof.
  split; [reflexivity|].
  apply (validate_required_argument_empty_path "name" "String!" "User" "Required" schema).
  reflexivity.
Defined.

Lemma validate_array_null_item_witness :
  (isArray (parseSchemaType "[Int!]") = true /\
   nullableItems (parseSchemaType "[Int!]") = false /\
   isScalar (pureType (parseSchemaType "[Int!]")) = true) /\
  validateRequiredInputData (VObj [("ids", VArr [num 1; VNull; num 3])])
    {| __type := "User"; __args := Some {[ "ids" := "[Int!]" ]} |} schema "Required"
  = Some {[ "1" := "Required" ]} /\
  validateRequiredInputData (VObj [("ids", VArr [num 1; VNull; VNull])])
    {| __type := "User"; __args := Some {[ "ids" := "[Int!]" ]} |} schema "Required"
  = Some (<[ "2" := "Required" ]> {[ "1" := "Required" ]}).
Proof.
  split; [repeat split; reflexivity|].
  apply (validate_array_null_item (H := IntRuntime.int_numbers)
           "ids" "[Int!]" "User" "Required" schema (Some 1%Z) (Some 3%Z));
    reflexivity.
Defined.

Lemma runRequests_positional_witness :
  let b := pending [entry 1 0; entry 2 1] in
  (resolved_all 0 (func <$> requests b) = (inl [101; 102], 1) /\
   length [101; 102] = length (requests b)) /\
  (runRequests b 0).2 =
    zip_with (fun req res => Resolve (promise req) res) (requests b) [101; 102] /\
  forall i req res,
    requests b !! i = Some req -> [101; 102] !! i = Some res ->
    (runRequests b 0).2 !! i = Some (Resolve (promise req) res).
Proof.
  intros b. split; [split; reflexivity|].
  apply (runRequests_positional b 0 1 [101; 102]); reflexivity.
Defined.

Lemma runRequests_combined_failure_witness :
  let b := pending [entry 1 0; entry 11 1] in
  resolved_all 0 (func <$> requests b) = (inr "batch failed", 1) /\
  ((forall req, requests b = [req] ->
      (runRequests b 0).2 = [Reject (promise req) "batch failed"]) /\
   (length (requests b) <> 1 ->
    (runRequests b 0).2 ≡ₚ
      imap (fun i req =>
              match (resolved (clientBefore (requests b) i 1) (func req)).1 with
              | inl r => Resolve (promise req) r
              | inr reqErr => Reject (promise req) reqErr
              end) (requests b))).
Proof.
  intros b. split; [reflexivity|].
  apply (runRequests_combined_failure b 0 1 "batch failed"). reflexivity.
Defined.

End Worked.

(** ** More on the input fixer *)

Section FixerMore.
Context `{JSNumber}.





(** X5. A value that is not null or undefined, fixed against a scalar
    type, has the [typeof] the scalar stands for: a number for [Int] and
    [Float], a string for [String] and [ID], a boolean for [Boolean]. *)
Theorem fixValue_scalar_typeof (v : value) (typeName : string) (schema : Schema) :
  is_nullish v = false ->
  isArray (parseSchemaType typeName) = false ->
  isScalar (pureType (parseSchemaType typeName)) = true ->
  typeofMatches (pureType (parseSchemaType typeName)) (fixValue v typeName schema) = true.
Proof.
  intros Hv Ha Hs. rewrite fixValue_scalar by done.
  apply isScalar_cases in Hs as [->|[->|[->|[->| ->]]]];
    unfold fixScalar, typeofMatches; cbn; destruct v; try done;
    by destruct (num_is_integer _).
Qed.

End FixerMore.

(** ** The fixer with the prototype chain *)

Section ChainFacts.
Context `{JSNumber} `{JSHost}.

(** [Chain.fixValue] with its loops written as [fixItems] and
    [fixFields]. *)
Lemma chain_fixValue_eq v typeName schema :
  Chain.fixValue v typeName schema =
  if is_nullish v then Some v
  else
    match typeName with
    | Chain.NotAString => None
    | Chain.TypeString t =>
        let p := parseSchemaType t in
        if isArray p then
          match v with
          | VArr items => VArr <$> Chain.fixItems (Chain.TypeString (pureType p)) schema items
          | _ => Some VUndefined
          end
        else if isScalar (pureType p) then Some (fixScalar v (pureType p))
        else
          match Chain.readSchema schema (pureType p) with
          | Chain.NoType => Some v
          | Chain.OwnType typeObject =>
              match v with
              | VArr _ => Some VUndefined
              | VObj fields => VObj <$> Chain.fixFields (Chain.readField typeObject) schema fields
              | _ => Some (VObj [])
              end
          | Chain.BuiltinType =>
              match v with
              | VArr _ => Some VUndefined
              | VObj fields =>
                  VObj <$> Chain.fixFields (Chain.readBuiltin (pureType p)) schema fields
              | _ => Some (VObj [])
              end
          end
    end.
Proof.
  destruct v as [| |b|n|s|items|fields]; try reflexivity.
  all: destruct typeName as [t|]; try reflexivity.
  all: cbn [Chain.fixValue is_nullish]; cbv zeta.
  all: destruct (isArray _); try reflexivity.
  all: try (destruct (isScalar _); [reflexivity|]).
  all: try (by destruct (Chain.readSchema _ _)).
  - f_equal. induction items as [|x xs IH]; [reflexivity|].
    cbn [Chain.fixItems]. destruct (Chain.fixValue x _ _); [|reflexivity]. by rewrite IH.
  - destruct (Chain.readSchema _ _) as [typeObject| |]; try reflexivity.
    all: cbn [isPlainObject is_nullish is_array negb andb]; f_equal.
    all: induction fields as [|[k x] xs IH]; [reflexivity|].
    all: cbn [Chain.fixFields].
    all: match goal with |- context [match ?r ?kk with Chain.Skip => _ | _ => _ end] => destruct (r kk) as [|tn|] end;
      try done.
    all: destruct (Chain.fixValue x tn schema); [|reflexivity]; by rewrite IH.
Qed.

(** The loop keeps the keys it reads a type for, in the order of the input. *)
Lemma chain_fixFields_keys read schema fields result :
  Chain.fixFields read schema fields = Some result ->
  result.*1 = filter (fun key => Chain.kept read key = true) fields.*1.
Proof.
  revert result. induction fields as [|[k x] rest IH]; intros result.
  { by intros [= <-]. }
  cbn [Chain.fixFields fmap list_fmap fst]. rewrite filter_cons.
  destruct (read k) as [|tn|] eqn:Hk; [|
    |done].
  { rewrite decide_False by (unfold Chain.kept; by rewrite Hk). apply IH. }
  destruct (Chain.fixValue x tn schema) as [y|]; [|done].
  destruct (Chain.fixFields read schema rest) as [r|]; [|done].
  intros [= <-]. unfold Chain.assign.
  destruct (String.eqb k "__proto__") eqn:Hp.
  - rewrite decide_False by (unfold Chain.kept; by rewrite Hk, Hp). by apply IH.
  - rewrite decide_True by (unfold Chain.kept; by rewrite Hk, Hp). cbn. f_equal. by apply IH.
Qed.

Lemma chain_fixFields_skip read schema fields :
  (forall key, key ∈ fields.*1 -> read key = Chain.Skip) ->
  Chain.fixFields read schema fields = Some [].
Proof.
  induction fields as [|[k x] rest IH]; [done|]. intros Hskip.
  cbn [Chain.fixFields]. rewrite Hskip by (cbn; apply elem_of_cons; by left).
  apply IH. intros key Hin. apply Hskip. cbn. apply elem_of_cons. by right.
Qed.

(** One property that cannot be fixed makes the loop throw. *)
Lemma chain_fixFields_throws read schema fields key x typeName :
  (key, x) ∈ fields -> read key = Chain.Expect typeName ->
  Chain.fixValue x typeName schema = None ->
  Chain.fixFields read schema fields = None.
Proof.
  intros Hin Hread Hfix. induction fields as [|[k y] rest IH]; [by apply elem_of_nil in Hin|].
  cbn [Chain.fixFields]. apply elem_of_cons in Hin as [[= <- <-]|Hin].
  - by rewrite Hread, Hfix.
  - rewrite (IH Hin). destruct (read k) as [|tn|]; try done.
    by destruct (Chain.fixValue y tn schema).
Qed.

Lemma chain_fixFields_kept read schema fields result key x typeName :
  Chain.fixFields read schema fields = Some result ->
  (key, x) ∈ fields -> read key = Chain.Expect typeName -> key <> "__proto__" ->
  exists y, Chain.fixValue x typeName schema = Some y /\ (key, y) ∈ result.
Proof.
  revert result. induction fields as [|[k y] rest IH]; intros result Hres Hin Hread Hne;
    [by apply elem_of_nil in Hin|].
  cbn [Chain.fixFields] in Hres. apply elem_of_cons in Hin as [[= <- <-]|Hin].
  - rewrite Hread in Hres. destruct (Chain.fixValue x typeName schema) as [y'|]; [|done].
    exists y'. split; [done|].
    destruct (Chain.fixFields read schema rest) as [r|]; [|done].
    injection Hres as <-. unfold Chain.assign.
    destruct (String.eqb_spec key "__proto__"); [done|]. apply elem_of_cons. by left.
  - destruct (read k) as [|tn|]; [by apply (IH result)| |done].
    destruct (Chain.fixValue y tn schema) as [y'|]; [|done].
    destruct (Chain.fixFields read schema rest) as [r|]; [|done].
    injection Hres as <-. destruct (IH r eq_refl Hin Hread Hne) as (z & Hz & Hzin).
    exists z. split; [done|]. unfold Chain.assign.
    destruct (String.eqb k "__proto__"); [done|]. apply elem_of_cons. by right.
Qed.

(** X1. [fixInputData] adds, renames and reorders nothing: when it
    returns, the properties of the result are those properties of the
    input for which a type is read (an argument of the operation with a
    non-empty type name, or a member of [Object.prototype] that no
    argument shadows), [__proto__] apart, in the order of the input. *)
Theorem fixInputData_keys (fields : list (string * value)) (operationType : Type_)
    (schema : Schema) (result : value) :
  Chain.fixInputData (VObj fields) operationType schema = Some result ->
  keys result =
  filter (fun key => Chain.kept (Chain.readArg operationType) key = true) fields.*1.
Proof.
  unfold Chain.fixInputData. cbn [isPlainObject is_nullish is_array negb andb].
  destruct (Chain.fixFields _ _ _) as [r|] eqn:Hr; [|done].
  intros [= <-]. cbn [keys]. by apply (chain_fixFields_keys _ schema).
Qed.

(** X2. The same one level down: against a type with fields in the
    schema, when [fixValue] returns, the properties of the fixed object
    are those properties of the input that name a field of the type or a
    member of [Object.prototype], [__proto__] apart, in the order of the
    input. *)
Theorem fixValue_object_keys (fields : list (string * value)) (typeName : string)
    (schema : Schema) (typeObject : TypeObject) (result : value) :
  isArray (parseSchemaType typeName) = false ->
  isScalar (pureType (parseSchemaType typeName)) = false ->
  schema !! pureType (parseSchemaType typeName) = Some typeObject ->
  Chain.fixValue (VObj fields) (Chain.TypeString typeName) schema = Some result ->
  keys result =
  filter (fun key => Chain.kept (Chain.readField typeObject) key = true) fields.*1.
Proof.
  intros Ha Hs Hty. rewrite chain_fixValue_eq. cbn [is_nullish]. cbv zeta.
  rewrite Ha, Hs. unfold Chain.readSchema. rewrite Hty.
  destruct (Chain.fixFields _ _ _) as [r|] eqn:Hr; [|done].
  intros [= <-]. cbn [keys]. by apply (chain_fixFields_keys _ schema).
Qed.

(** X6. When nothing truthy is read for any property of the input (as
    when the operation has no [__args]), the result is the empty
    object. *)
Theorem fixInputData_no_arguments (data : value) (operationType : Type_) (schema : Schema) :
  isPlainObject data = true ->
  (forall key, key ∈ keys data -> Chain.readArg operationType key = Chain.Skip) ->
  Chain.fixInputData data operationType schema = Some (VObj []).
Proof.
  intros Hd Hnone. unfold Chain.fixInputData. rewrite Hd. cbn [negb].
  destruct data as [| |b|n|s|items|fields]; try done.
  cbn [keys] in Hnone. by rewrite chain_fixFields_skip.
Qed.

(** X19. A property of the input named like a member of
    [Object.prototype], where the operation has no argument of that name:
    holding anything but [null] or [undefined] it makes [fixInputData]
    throw, whatever else the input holds; holding [null] or [undefined]
    it is copied to the result as it is. *)
Theorem fixInputData_inherited_name (fields : list (string * value))
    (operationType : Type_) (schema : Schema) (key : string) (x : value) :
  (key, x) ∈ fields ->
  Chain.readArg operationType key = Chain.Expect Chain.NotAString ->
  (is_nullish x = false -> Chain.fixInputData (VObj fields) operationType schema = None) /\
  (is_nullish x = true -> key <> "__proto__" ->
   forall result, Chain.fixInputData (VObj fields) operationType schema = Some (VObj result) ->
     (key, x) ∈ result).
Proof.
  intros Hin Hread. unfold Chain.fixInputData.
  cbn [isPlainObject is_nullish is_array negb andb]. split.
  - intros Hx. rewrite (chain_fixFields_throws _ _ _ key x Chain.NotAString); try done.
    rewrite chain_fixValue_eq. by rewrite Hx.
  - intros Hx Hne result.
    destruct (Chain.fixFields _ _ _) as [r|] eqn:Hr; [|done]. intros [= <-].
    destruct (chain_fixFields_kept _ _ _ _ key x _ Hr Hin Hread Hne) as (y & Hy & Hyin).
    rewrite chain_fixValue_eq, Hx in Hy. by injection Hy as <-.
Qed.

Lemma ownNamesOnly_array items :
  Chain.ownNamesOnly (VArr items) = forallb Chain.ownNamesOnly items.
Proof. cbn [Chain.ownNamesOnly]. induction items as [|x xs IH]; [done|]. cbn. by rewrite IH. Qed.

Lemma ownNamesOnly_object fields :
  Chain.ownNamesOnly (VObj fields) =
  forallb (fun kv => negb (objectMember kv.1) && Chain.ownNamesOnly kv.2) fields.
Proof.
  cbn [Chain.ownNamesOnly]. induction fields as [|[k x] xs IH]; [done|]. cbn. by rewrite IH.
Qed.

Lemma readSchema_NoType schema name :
  Chain.readSchema schema name = Chain.NoType -> schema !! name = None.
Proof. unfold Chain.readSchema. destruct (schema !! name); [done|]. by destruct (objectMember _). Qed.

Lemma readSchema_BuiltinType schema name :
  Chain.readSchema schema name = Chain.BuiltinType -> schema !! name = None.
Proof. unfold Chain.readSchema. destruct (schema !! name); [done|]. by destruct (objectMember _). Qed.

Lemma readSchema_OwnType schema name typeObject :
  Chain.readSchema schema name = Chain.OwnType typeObject -> schema !! name = Some typeObject.
Proof.
  unfold Chain.readSchema. destruct (schema !! name); [congruence|]. by destruct (objectMember _).
Qed.

Lemma chain_fixValue_pruned schema v :
  forall typeName result,
    Chain.ownNamesOnly v = true ->
    Chain.fixValue v (Chain.TypeString typeName) schema = Some result ->
    pruned schema typeName result = true.
Proof.
  induction v as [| |b|n|s|items IH|fields IH] using value_nested_ind;
    intros typeName result Hown; rewrite chain_fixValue_eq; cbn [is_nullish]; cbv zeta.
  1,2: by (intros [= <-]; apply pruned_leaf).
  all: destruct (isArray (parseSchemaType typeName)) eqn:Ha.
  all: try by (intros [= <-]; apply pruned_leaf).
  all: try (destruct (isScalar (pureType (parseSchemaType typeName))) eqn:Hs;
    [ intros [= <-]; apply pruned_leaf;
      match goal with |- match fixScalar ?v ?t with _ => _ end =>
        pose proof (fixScalar_native v t Hs) as Hn; by destruct (fixScalar v t) end
    | destruct (Chain.readSchema schema (pureType (parseSchemaType typeName)))
        as [typeObject| |] eqn:Hty ]).
  all: try by (intros [= <-]; apply pruned_leaf).
  all: try by (intros [= <-]; apply pruned_empty).
  all: try by (intros [= <-]; apply pruned_opaque; [done|done|by apply readSchema_NoType]).
  - (* items of an array *)
    rewrite ownNamesOnly_array in Hown.
    destruct (Chain.fixItems _ _ _) as [ys|] eqn:Hys; [|done]. intros [= <-].
    rewrite pruned_array by done.
    revert ys Hys. induction IH as [|x rest Hx _ IHrest]; intros ys.
    { by intros [= <-]. }
    cbn [Chain.fixItems]. cbn [forallb] in Hown. apply andb_true_iff in Hown as [Hox Hor].
    destruct (Chain.fixValue x _ _) as [y|] eqn:Hy; [|done].
    destruct (Chain.fixItems _ _ rest) as [ys'|]; [|done]. intros [= <-].
    cbn [forallb]. by rewrite (Hx _ _ Hox Hy), (IHrest Hor ys').
  - (* fields of a type of the schema *)
    rewrite ownNamesOnly_object in Hown.
    destruct (Chain.fixFields _ _ _) as [r|] eqn:Hr; [|done]. intros [= <-].
    apply readSchema_OwnType in Hty.
    cbn [pruned]. cbv zeta. rewrite Ha, Hs, Hty.
    revert r Hr. induction IH as [|[k x] rest Hx _ IHrest]; intros r.
    { by intros [= <-]. }
    cbn [Chain.fixFields]. cbn [forallb fst snd] in Hown.
    apply andb_true_iff in Hown as [[Hk Hox]%andb_true_iff Hor].
    unfold Chain.readField at 1.
    destruct (typeObject !! k) as [type|] eqn:Htk.
    + destruct (Chain.fixValue x _ _) as [y|] eqn:Hy; [|done].
      destruct (Chain.fixFields _ _ rest) as [r'|]; [|done]. intros [= <-].
      unfold Chain.assign. destruct (String.eqb k "__proto__"); [by apply IHrest|].
      rewrite Htk. cbn in Hx. by rewrite (Hx _ _ Hox Hy), (IHrest Hor r').
    + apply negb_true_iff in Hk. rewrite Hk. by apply IHrest.
  - (* fields read off a member of Object.prototype *)
    destruct (Chain.fixFields _ _ _) as [r|]; [|done]. intros [= <-].
    apply pruned_opaque; [done|done|by apply readSchema_BuiltinType].
Qed.

Lemma readArg_argTypeName operationType key :
  objectMember key = false ->
  Chain.readArg operationType key =
  match argTypeName operationType key with
  | Some t => Chain.Expect (Chain.TypeString t)
  | None => Chain.Skip
  end.
Proof.
  intros Hk. unfold Chain.readArg, argTypeName.
  destruct (__args operationType) as [args|]; [|done].
  destruct (args !! key) as [t|]; [by destruct (String.eqb t "")|by rewrite Hk].
Qed.

(** X17. Pruning holds of input that has, at every depth, no property
    named like a member of [Object.prototype]: what [fixInputData]
    returns for it holds only properties the schema names for the type
    expected there. *)
Theorem fixInputData_prunes_own_names (data result : value) (operationType : Type_)
    (schema : Schema) :
  isPlainObject data = true ->
  Chain.ownNamesOnly data = true ->
  Chain.fixInputData data operationType schema = Some result ->
  prunedArgs operationType schema result = true.
Proof.
  intros Hd Hown. unfold Chain.fixInputData. rewrite Hd. cbn [negb].
  destruct data as [| |b|n|s|items|fields]; try done; try by intros [= <-].
  rewrite ownNamesOnly_object in Hown.
  destruct (Chain.fixFields _ _ _) as [r|] eqn:Hr; [|done]. intros [= <-].
  cbn [prunedArgs]. clear Hd. revert r Hr.
  induction fields as [|[k x] rest IH]; intros r.
  { by intros [= <-]. }
  cbn [Chain.fixFields]. cbn [forallb fst snd] in Hown.
  apply andb_true_iff in Hown as [[Hk Hox]%andb_true_iff Hor].
  apply negb_true_iff in Hk. rewrite (readArg_argTypeName _ _ Hk).
  destruct (argTypeName operationType k) as [t|] eqn:Ht; [|by apply IH].
  destruct (Chain.fixValue x _ _) as [y|] eqn:Hy; [|done].
  destruct (Chain.fixFields _ _ rest) as [r'|]; [|done]. intros [= <-].
  unfold Chain.assign. destruct (String.eqb k "__proto__"); [by apply IH|].
  cbn [forallb fst snd]. rewrite Ht.
  by rewrite (chain_fixValue_pruned _ _ _ _ Hox Hy), (IH Hor r').
Qed.

Lemma length_drop_last s : String.length (drop_last s) <= String.length s.
Proof.
  induction s as [|c s IH]; [done|]. cbn [drop_last]. destruct s; cbn in *; lia.
Qed.

Lemma length_item_type typeName :
  isArray (parseSchemaType typeName) = true ->
  String.length (pureType (parseSchemaType typeName)) < String.length typeName.
Proof.
  unfold parseSchemaType.
  set (t1 := if ends_with_bang typeName then drop_last typeName else typeName).
  assert (Ht1 : String.length t1 <= String.length typeName).
  { unfold t1. destruct (ends_with_bang _); [apply length_drop_last|done]. }
  destruct (starts_with_bracket t1) eqn:Hb; [|done]. intros _. cbn [pureType].
  destruct t1 as [|c rest]; [done|]. cbn [drop_first_last].
  pose proof (length_drop_last rest). pose proof (length_drop_last (drop_last rest)).
  cbn [String.length] in Ht1.
  destruct (ends_with_bang _); lia.
Qed.

Lemma plainTypeWithin_le n m typeName :
  m <= n -> plainTypeWithin n typeName = true -> plainTypeWithin m typeName = true.
Proof.
  revert m typeName. induction n as [|n IH]; intros m typeName Hle.
  { by replace m with 0 by lia. }
  destruct m as [|m]; cbn [plainTypeWithin]; cbv zeta.
  - intros [-> _]%andb_true_iff. by destruct (isArray _).
  - intros [-> Hrest]%andb_true_iff. destruct (isArray _); [|done].
    cbn [negb andb]. apply IH; [lia|done].
Qed.

Lemma plainType_pure typeName :
  plainType typeName = true ->
  objectMember (pureType (parseSchemaType typeName)) = false.
Proof.
  unfold plainType. destruct (String.length typeName); cbn [plainTypeWithin]; cbv zeta;
    by intros [->%negb_true_iff _]%andb_true_iff.
Qed.

Lemma plainType_items typeName :
  plainType typeName = true -> isArray (parseSchemaType typeName) = true ->
  plainType (pureType (parseSchemaType typeName)) = true.
Proof.
  intros Hp Ha. pose proof (length_item_type _ Ha) as Hlen. unfold plainType in *.
  destruct (String.length typeName) as [|n]; [lia|].
  cbn [plainTypeWithin] in Hp. cbv zeta in Hp. rewrite Ha in Hp.
  apply andb_true_iff in Hp as [_ Hp]. eapply plainTypeWithin_le; [|exact Hp]. lia.
Qed.

Lemma own_name_not_proto key :
  objectMember key = false -> String.eqb key "__proto__" = false.
Proof.
  intros Hk. destruct (String.eqb_spec key "__proto__") as [->|]; [|done].
  by rewrite proto_member in Hk.
Qed.

Lemma chain_fixValue_agrees schema v :
  map_Forall (fun _ (typeObject : TypeObject) =>
                map_Forall (fun _ type => plainType (__type type) = true) typeObject)
             schema ->
  forall typeName,
    plainType typeName = true -> Chain.ownNamesOnly v = true ->
    Chain.fixValue v (Chain.TypeString typeName) schema = Some (fixValue v typeName schema).
Proof.
  intros Hschema.
  induction v as [| |b|n|s|items IH|fields IH] using value_nested_ind;
    intros typeName Hplain Hown; try reflexivity.
  all: rewrite chain_fixValue_eq, fixValue_eq; cbn [is_nullish]; cbv zeta.
  all: destruct (isArray (parseSchemaType typeName)) eqn:Ha; try reflexivity.
  all: try (destruct (isScalar (pureType (parseSchemaType typeName))) eqn:Hs;
            [reflexivity|]).
  all: try (unfold Chain.readSchema; rewrite (plainType_pure _ Hplain);
            destruct (schema !! pureType (parseSchemaType typeName)) as [typeObject|] eqn:Hty;
            try reflexivity).
  - rewrite ownNamesOnly_array in Hown. apply plainType_items in Hplain; [|done].
    assert (Chain.fixItems (Chain.TypeString (pureType (parseSchemaType typeName))) schema items
            = Some (map (fun item => fixValue item (pureType (parseSchemaType typeName)) schema)
                        items)) as ->; [|done].
    induction IH as [|x rest Hx _ IHrest]; [done|].
    cbn [forallb] in Hown. apply andb_true_iff in Hown as [Hox Hor].
    cbn [Chain.fixItems map]. by rewrite (Hx _ Hplain Hox), (IHrest Hor).
  - rewrite ownNamesOnly_object in Hown.
    cbn [isPlainObject is_nullish is_array negb andb].
    assert (Chain.fixFields (Chain.readField typeObject) schema fields
            = Some (omap (fixField typeObject schema) fields)) as ->; [|done].
    pose proof (Hschema _ _ Hty) as Htypes.
    induction IH as [|[k x] rest Hx _ IHrest]; [done|].
    cbn [forallb fst snd] in Hown.
    apply andb_true_iff in Hown as [[Hk%negb_true_iff Hox]%andb_true_iff Hor].
    cbn [Chain.fixFields]. rewrite fixFields_cons. unfold Chain.readField at 1.
    destruct (typeObject !! k) as [type|] eqn:Htk.
    + cbn in Hx. rewrite (Hx _ (Htypes _ _ Htk) Hox), (IHrest Hor).
      unfold Chain.assign. by rewrite (own_name_not_proto _ Hk).
    + rewrite Hk. by apply IHrest.
Qed.

(** X18. On such input, with a schema and an operation that use no
    member of [Object.prototype] as a type name, the fixer does not throw
    and returns what [fixInputData] and [fixValue] of the first part
    compute, which read own properties only. *)
Theorem fixInputData_on_own_names (data v : value) (operationType : Type_)
    (schema : Schema) (typeName : string) :
  plainTypes operationType schema = true ->
  plainType typeName = true ->
  Chain.ownNamesOnly data = true ->
  Chain.ownNamesOnly v = true ->
  Chain.fixInputData data operationType schema = Some (fixInputData data operationType schema) /\
  Chain.fixValue v (Chain.TypeString typeName) schema = Some (fixValue v typeName schema).
Proof.
  intros [Hargs Hschema%bool_decide_eq_true]%andb_true_iff Hplain Hdata Hv.
  split; [|by apply chain_fixValue_agrees].
  unfold Chain.fixInputData, fixInputData.
  destruct data as [| |b|n|s|items|fields]; try reflexivity.
  cbn [isPlainObject is_nullish is_array negb andb].
  rewrite ownNamesOnly_object in Hdata.
  assert (Chain.fixFields (Chain.readArg operationType) schema fields
          = Some (omap (fixArg operationType schema) fields)) as ->; [|done].
  induction fields as [|[k x] rest IH]; [done|].
  cbn [forallb fst snd] in Hdata.
  apply andb_true_iff in Hdata as [[Hk%negb_true_iff Hox]%andb_true_iff Hor].
  cbn [Chain.fixFields]. rewrite fixArgs_cons, (readArg_argTypeName _ _ Hk).
  destruct (argTypeName operationType k) as [t|] eqn:Ht; [|by apply IH].
  assert (plainType t = true) as Hpt.
  { unfold argTypeName in Ht. destruct (__args operationType) as [args|]; [|done].
    apply bool_decide_eq_true in Hargs.
    destruct (args !! k) as [t'|] eqn:Hk'; [|done].
    destruct (String.eqb t' ""); [done|]. injection Ht as <-. by apply (Hargs k). }
  rewrite (chain_fixValue_agrees _ _ Hschema _ Hpt Hox), (IH Hor).
  unfold Chain.assign. by rewrite (own_name_not_proto _ Hk).
Qed.

End ChainFacts.

(** ** More on the required-field validator *)

Lemma map_fold_preserves {A B} (I : B -> Prop) (f : string -> A -> B -> B) (b : B)
    (m : gmap string A) :
  I b ->
  (forall k x r, m !! k = Some x -> I r -> I (f k x r)) ->
  I (map_fold f b m).
Proof.
  intros Hb Hstep.
  enough (Hgen : (forall k x, m !! k = Some x -> forall r, I r -> I (f k x r)) ->
                 I (map_fold f b m)) by (apply Hgen; eauto).
  apply (map_fold_weak_ind
           (fun r m' => (forall k x, m' !! k = Some x -> forall r, I r -> I (f k x r)) -> I r)).
  - done.
  - intros i x m' r Hi IH Hall. apply (Hall i x); [by rewrite lookup_insert_eq|].
    apply IH. intros k y Hk. apply Hall. rewrite lookup_insert_ne; [done|]. congruence.
Qed.

Lemma map_fold_reaches {A B} (I : B -> Prop) (f : string -> A -> B -> B) (b : B)
    (m : gmap string A) :
  (forall k x r, m !! k = Some x -> I r -> I (f k x r)) ->
  (exists k x, m !! k = Some x /\ forall r, I (f k x r)) ->
  I (map_fold f b m).
Proof.
  intros Hmono Hbad.
  enough (Hgen : (forall k x, m !! k = Some x -> forall r, I r -> I (f k x r)) ->
                 (exists k x, m !! k = Some x /\ forall r, I (f k x r)) ->
                 I (map_fold f b m)) by (apply Hgen; eauto).
  apply (map_fold_weak_ind
           (fun r m' => (forall k x, m' !! k = Some x -> forall r, I r -> I (f k x r)) ->
                        (exists k x, m' !! k = Some x /\ forall r, I (f k x r)) -> I r)).
  - intros _ (k & x & Hk & _). by rewrite lookup_empty in Hk.
  - intros i x m' r Hi IH Hall (k & y & Hk & Hky).
    destruct (decide (k = i)) as [->|Hne].
    + rewrite lookup_insert_eq in Hk. injection Hk as <-. apply Hky.
    + rewrite lookup_insert_ne in Hk by done.
      apply (Hall i x); [by rewrite lookup_insert_eq|].
      apply IH; [|by eauto].
      intros k' y' Hk'. apply Hall. rewrite lookup_insert_ne; [done|]. congruence.
Qed.

Section ValidatorMore.
Context `{JSNumber}.

(** Whatever [report] keeps, [validateValue] keeps. *)
Section Invariant.
Variable I : ValidationContext -> Prop.
Hypothesis I_report : forall fieldPath context, I context -> I (report fieldPath context).

Lemma validateMissing_invariant fieldPath typeName context :
  I context -> I (validateMissing fieldPath typeName context).
Proof. unfold validateMissing. destruct (negb _); auto. Qed.

Lemma validatePrimitive_invariant fieldPath typeName schema context :
  I context -> I (validatePrimitive fieldPath typeName schema context).
Proof.
  intros Hc. unfold validatePrimitive. cbv zeta.
  destruct (isArray _); [done|]. destruct (negb (isScalar _)); [|done].
  destruct (schema !! _) as [typeObject|]; [|done].
  apply map_fold_preserves; [done|]. intros. by apply validateMissing_invariant.
Qed.

Lemma reportNullItems_invariant items index fieldPath context :
  I context -> I (reportNullItems items index fieldPath context).
Proof.
  revert index context. induction items as [|item rest IH]; intros index context Hc; [done|].
  cbn [reportNullItems]. apply IH. destruct (is_nullish item); auto.
Qed.

Lemma validateValue_invariant schema v :
  forall fieldPath typeName context,
    I context -> I (validateValue v fieldPath typeName schema context).
Proof.
  induction v as [| |b|n|s|items IH|fields IH] using value_nested_ind;
    intros fieldPath typeName context Hc; cbn [validateValue]; cbv zeta.
  all: destruct (negb (isNullable _) && _); [by auto|].
  1-5: destruct (isArray _ && negb _); destruct (isArray _); try done;
       destruct (negb (isScalar _)); try done;
       destruct (schema !! _) as [typeObject|]; try done;
       cbn [isPlainObject is_nullish is_array negb andb]; try done;
       (apply map_fold_preserves; [done|]; intros key type r _ Hr);
       try (by apply validateMissing_invariant);
       by (destruct (String.eqb key "length");
           [apply validatePrimitive_invariant | apply validateMissing_invariant]).
  - assert (Hc1 : I (if isArray (parseSchemaType typeName) &&
                        negb (nullableItems (parseSchemaType typeName))
                     then reportNullItems items 0 fieldPath context else context)).
    { destruct (_ && _); [by apply reportNullItems_invariant | done]. }
    revert Hc1. generalize (if isArray (parseSchemaType typeName) &&
                        negb (nullableItems (parseSchemaType typeName))
                     then reportNullItems items 0 fieldPath context else context).
    intros context1 Hc1.
    destruct (isArray _).
    + revert context1 Hc1. generalize 0.
      induction IH as [|x rest Hx _ IHrest]; intros index context1 Hc1; [done|].
      apply IHrest. by apply Hx.
    + destruct (negb (isScalar _)); [|done].
      by destruct (schema !! _).
  - assert (Hc1 : I (if isArray (parseSchemaType typeName) &&
                        negb (nullableItems (parseSchemaType typeName))
                     then context else context)) by (by destruct (_ && _)).
    revert Hc1. generalize (if isArray (parseSchemaType typeName) &&
                        negb (nullableItems (parseSchemaType typeName))
                     then context else context).
    intros context1 Hc1.
    destruct (isArray _); [done|].
    destruct (negb (isScalar _)); [|done].
    destruct (schema !! _) as [typeObject|]; [|done].
    cbn [isPlainObject is_nullish is_array negb andb].
    apply map_fold_preserves; [done|]. intros key type r _ Hr.
    induction IH as [|[k x] rest Hx _ IHrest];
      [by apply validateMissing_invariant|].
    destruct (String.eqb k key); [by apply Hx | exact IHrest].
Qed.
End Invariant.


Lemma hasViolations_report fieldPath context : hasViolations (report fieldPath context).
Proof. unfold hasViolations. rewrite validationErrors_report. apply insert_non_empty. Qed.

Lemma hasViolations_validateValue schema v fieldPath typeName context :
  hasViolations context -> hasViolations (validateValue v fieldPath typeName schema context).
Proof. apply validateValue_invariant. intros. apply hasViolations_report. Qed.

Lemma fields_spec {A} (g : string -> A -> bool)
    (f : string -> A -> ValidationContext -> ValidationContext)
    (m : gmap string A) (context : ValidationContext) :
  (forall key x r, m !! key = Some x ->
     (g key x = true -> f key x r = r) /\
     (g key x = false -> hasViolations (f key x r)) /\
     (hasViolations r -> hasViolations (f key x r))) ->
  (bool_decide (map_Forall (fun key x => g key x = true) m) = true ->
     map_fold f context m = context) /\
  (bool_decide (map_Forall (fun key x => g key x = true) m) = false ->
     hasViolations (map_fold f context m)).
Proof.
  intros Hspec. split.
  - intros Hall%bool_decide_eq_true.
    apply (map_fold_preserves (fun r => r = context)); [done|].
    intros k x r Hk ->. destruct (Hspec k x context Hk) as (Hok & _). by apply Hok, Hall.
  - intros Hnot%bool_decide_eq_false.
    apply map_not_Forall in Hnot as (k & x & Hk & Hg); [|apply _].
    apply map_fold_reaches.
    + intros k' x' r Hk'. by destruct (Hspec k' x' r Hk') as (_ & _ & Hmono).
    + exists k, x. split; [done|]. intros r.
      destruct (Hspec k x r Hk) as (_ & Hbad & _). apply Hbad.
      by destruct (g k x).
Qed.

Lemma validateMissing_spec fieldPath typeName context :
  (isNullable (parseSchemaType typeName) = true ->
     validateMissing fieldPath typeName context = context) /\
  (isNullable (parseSchemaType typeName) = false ->
     hasViolations (validateMissing fieldPath typeName context)) /\
  (hasViolations context -> hasViolations (validateMissing fieldPath typeName context)).
Proof.
  unfold validateMissing. destruct (isNullable _); cbn [negb]; repeat split; try done.
  all: intros; apply hasViolations_report.
Qed.

Lemma validatePrimitive_spec fieldPath typeName schema context :
  (completePrimitive schema typeName = true ->
     validatePrimitive fieldPath typeName schema context = context) /\
  (completePrimitive schema typeName = false ->
     hasViolations (validatePrimitive fieldPath typeName schema context)) /\
  (hasViolations context -> hasViolations (validatePrimitive fieldPath typeName schema context)).
Proof.
  split; [|split]; [| |apply validatePrimitive_invariant; intros; apply hasViolations_report].
  all: unfold completePrimitive, validatePrimitive; cbv zeta.
  all: destruct (isArray _); [done|]; destruct (negb (isScalar _)); [|done].
  all: destruct (schema !! _) as [typeObject|]; [|done].
  all: apply (fields_spec (fun _ type => isNullable (parseSchemaType (__type type)))).
  all: intros; apply validateMissing_spec.
Qed.

Lemma reportNullItems_spec items index fieldPath context :
  (forallb (fun item => negb (is_nullish item)) items = true ->
     reportNullItems items index fieldPath context = context) /\
  (forallb (fun item => negb (is_nullish item)) items = false ->
     hasViolations (reportNullItems items index fieldPath context)).
Proof.
  revert index context. induction items as [|item rest IH]; intros index context.
  { by split. }
  cbn [reportNullItems forallb]. destruct (is_nullish item); cbn [negb andb].
  - split; [done|]. intros _. apply reportNullItems_invariant; [|apply hasViolations_report].
    intros. apply hasViolations_report.
  - apply IH.
Qed.


Ltac use_fields_spec :=
  lazymatch goal with
  | |- context [bool_decide (map_Forall (fun key type => @?g key type = true) _)] =>
      apply (fields_spec g)
  end.

Local Abbreviation spec_at schema v :=
  (forall fieldPath typeName context,
    (complete schema typeName v = true ->
       validateValue v fieldPath typeName schema context = context) /\
    (complete schema typeName v = false ->
       hasViolations (validateValue v fieldPath typeName schema context))).

Lemma items_spec schema pure fieldPath items :
  Forall (fun item => spec_at schema item) items ->
  forall index context,
    ((fix all (l : list value) : bool :=
        match l with
        | [] => true
        | item :: rest => complete schema pure item && all rest
        end) items = true ->
     (fix each (l : list value) (index : nat) (ctx : ValidationContext) :=
        match l with
        | [] => ctx
        | item :: rest =>
            each rest (S index)
              (validateValue item (appendFieldPath fieldPath (pretty index))
                 pure schema ctx)
        end) items index context = context) /\
    ((fix all (l : list value) : bool :=
        match l with
        | [] => true
        | item :: rest => complete schema pure item && all rest
        end) items = false ->
     hasViolations ((fix each (l : list value) (index : nat) (ctx : ValidationContext) :=
        match l with
        | [] => ctx
        | item :: rest =>
            each rest (S index)
              (validateValue item (appendFieldPath fieldPath (pretty index))
                 pure schema ctx)
        end) items index context)) /\
    (hasViolations context ->
     hasViolations ((fix each (l : list value) (index : nat) (ctx : ValidationContext) :=
        match l with
        | [] => ctx
        | item :: rest =>
            each rest (S index)
              (validateValue item (appendFieldPath fieldPath (pretty index))
                 pure schema ctx)
        end) items index context)).
Proof.
  induction 1 as [|x rest Hx _ IHrest]; intros index context; [done|].
  destruct (Hx (appendFieldPath fieldPath (pretty index)) pure context) as [Hok Hbad].
  destruct (IHrest (S index)
              (validateValue x (appendFieldPath fieldPath (pretty index)) pure schema
                 context)) as (Hrok & Hrbad & Hrmono).
  repeat split.
  - intros [Hc Hr]%andb_true_iff.
    destruct (IHrest (S index) context) as (Hrok' & _).
    rewrite (Hok Hc). by apply Hrok'.
  - intros Hfalse. destruct (complete schema pure x) eqn:Hc.
    + apply Hrbad. exact Hfalse.
    + apply Hrmono. by apply Hbad.
  - intros Hne. apply Hrmono. by apply hasViolations_validateValue.
Qed.

Lemma field_spec schema fieldPath key (type : Type_) fields :
  Forall (fun kv => spec_at schema kv.2) fields ->
  forall context,
    ((fix get (l : list (string * value)) : bool :=
        match l with
        | [] => isNullable (parseSchemaType (__type type))
        | (k, x) :: rest =>
            if String.eqb k key then complete schema (__type type) x else get rest
        end) fields = true ->
     (fix get (l : list (string * value)) :=
        match l with
        | [] => validateMissing (appendFieldPath fieldPath key) (__type type) context
        | (k, x) :: rest =>
            if String.eqb k key
            then validateValue x (appendFieldPath fieldPath key) (__type type) schema
                   context
            else get rest
        end) fields = context) /\
    ((fix get (l : list (string * value)) : bool :=
        match l with
        | [] => isNullable (parseSchemaType (__type type))
        | (k, x) :: rest =>
            if String.eqb k key then complete schema (__type type) x else get rest
        end) fields = false ->
     hasViolations ((fix get (l : list (string * value)) :=
        match l with
        | [] => validateMissing (appendFieldPath fieldPath key) (__type type) context
        | (k, x) :: rest =>
            if String.eqb k key
            then validateValue x (appendFieldPath fieldPath key) (__type type) schema
                   context
            else get rest
        end) fields)) /\
    (hasViolations context ->
     hasViolations ((fix get (l : list (string * value)) :=
        match l with
        | [] => validateMissing (appendFieldPath fieldPath key) (__type type) context
        | (k, x) :: rest =>
            if String.eqb k key
            then validateValue x (appendFieldPath fieldPath key) (__type type) schema
                   context
            else get rest
        end) fields)).
Proof.
  induction 1 as [|[k x] rest Hx _ IHrest]; intros context.
  { apply validateMissing_spec. }
  destruct (String.eqb k key); [|apply IHrest].
  destruct (Hx (appendFieldPath fieldPath key) (__type type) context) as [Hok Hbad].
  repeat split; [done|done|]. apply hasViolations_validateValue.
Qed.

Lemma validateValue_spec schema v :
  forall fieldPath typeName context,
    (complete schema typeName v = true ->
       validateValue v fieldPath typeName schema context = context) /\
    (complete schema typeName v = false ->
       hasViolations (validateValue v fieldPath typeName schema context)).
Proof.
  induction v as [| |b|n|s|items IH|fields IH] using value_nested_ind;
    intros fieldPath typeName context; cbn [validateValue complete]; cbv zeta.
  all: destruct (parseSchemaType typeName) as [pure nullable arr nitems].
  all: cbn [pureType isNullable isArray nullableItems is_nullish].
  all: destruct nullable; cbn [negb andb];
    try (split; [done|intros _; apply hasViolations_report]).
  all: destruct arr; cbn [negb andb].
  all: try (destruct nitems; cbn [negb andb]).
  all: try done.
  all: try (destruct (isScalar pure); cbn [negb]; [done|];
            destruct (schema !! pure) as [typeObject|]; [|done];
            cbn [isPlainObject is_nullish is_array negb andb]; try done).
  all: try (use_fields_spec; intros key type r _).
  all: try apply validateMissing_spec.
  all: try (destruct (String.eqb key "length");
            [apply validatePrimitive_spec | apply validateMissing_spec]).
  all: try (intros; by apply field_spec).
  all: try (destruct (items_spec schema pure fieldPath items IH 0 context)
              as (Hok & Hbad & _); by split).
  all: destruct (reportNullItems_spec items 0 fieldPath context) as [Hnok Hnbad].
  all: destruct (forallb (fun item => negb (is_nullish item)) items); cbn [andb].
  all: try (rewrite Hnok by done;
            destruct (items_spec schema pure fieldPath items IH 0 context)
              as (Hok & Hbad & _); by split).
  all: split; [done|]; intros _.
  all: by apply (items_spec schema pure fieldPath items IH 0), Hnbad.
Qed.


Lemma size_pos_iff (errors : ValidationErrors) :
  bool_decide (0 < size errors) = true <-> errors <> ∅.
Proof.
  rewrite bool_decide_eq_true, <- map_size_non_empty_iff. lia.
Qed.

(** X7. Where no argument of the operation and no field of the schema is
    named like an array index or like a member of a built-in prototype,
    the validator reports nothing on an object-like root exactly when the
    input is complete: no false alarm on input that has a value wherever
    the types are non-nullable, and no incomplete input that passes. *)
Theorem validateRequiredInputData_complete `{JSHost} (data : value)
    (operationType : Type_) (schema : Schema) (message : string) :
  plainNames operationType schema = true ->
  isPlainObject data = true ->
  validateRequiredInputData data operationType schema message = None <->
  completeArgs operationType schema data = true.
Proof.
  intros _ Hd. unfold validateRequiredInputData, completeArgs. rewrite Hd. cbn [negb].
  destruct (__args operationType) as [args|]; [|done].
  set (context := {| validationErrors := ∅; requiredErrorMessage := message |}).
  destruct (fields_spec (fun key t => complete schema t (get_prop data key))
              (fun key t ctx => validateValue (get_prop data key) "" t schema ctx)
              args context) as [Hok Hbad].
  { intros key t r _. destruct (validateValue_spec schema (get_prop data key) "" t r)
      as [H1 H2]. repeat split; [done|done|apply hasViolations_validateValue]. }
  destruct (bool_decide (map_Forall _ args)).
  - rewrite Hok by done. done.
  - specialize (Hbad eq_refl). apply size_pos_iff in Hbad. rewrite Hbad. done.
Qed.

(** X8. A mapping the validator returns is never empty, and every
    message in it is the [requiredErrorMessage] that was passed. *)
Theorem validateRequiredInputData_result (data : value) (operationType : Type_)
    (schema : Schema) (message : string) (errors : ValidationErrors) :
  validateRequiredInputData data operationType schema message = Some errors ->
  errors <> ∅ /\ forall fieldPath text, errors !! fieldPath = Some text -> text = message.
Proof.
  unfold validateRequiredInputData. destruct (negb _); [done|].
  set (context := {| validationErrors := ∅; requiredErrorMessage := message |}).
  set (I := fun ctx : ValidationContext =>
              requiredErrorMessage ctx = message /\
              forall fieldPath text,
                validationErrors ctx !! fieldPath = Some text -> text = message).
  assert (HI : I context).
  { split; [done|]. intros p text. unfold context. cbn. by rewrite lookup_empty. }
  assert (Hrep : forall fieldPath ctx, I ctx -> I (report fieldPath ctx)).
  { intros p ctx [Hm Hall]. split; [done|]. intros q text.
    rewrite validationErrors_report. destruct (decide (p = q)) as [->|Hne].
    - rewrite lookup_insert_eq. congruence.
    - rewrite lookup_insert_ne by done. apply Hall. }
  assert (HI' : I (match __args operationType with
                   | Some args =>
                       map_fold (fun key argTypeName ctx =>
                                   validateValue (get_prop data key) "" argTypeName schema ctx)
                                context args
                   | None => context
                   end)).
  { destruct (__args operationType) as [args|]; [|done].
    apply map_fold_preserves; [done|]. intros. by apply validateValue_invariant. }
  destruct (bool_decide _) eqn:Hsize; [|done].
  intros [= <-]. split; [by apply size_pos_iff | apply HI'].
Qed.

(** X9. [validateValue] only adds: the paths recorded before the call are
    still recorded after it, and the message to report stays the same. *)
Theorem validateValue_keeps_violations (v : value) (fieldPath typeName : string)
    (schema : Schema) (context : ValidationContext) :
  requiredErrorMessage (validateValue v fieldPath typeName schema context)
    = requiredErrorMessage context /\
  dom (validationErrors context) ⊆
    dom (validationErrors (validateValue v fieldPath typeName schema context)).
Proof.
  apply (validateValue_invariant
           (fun ctx => requiredErrorMessage ctx = requiredErrorMessage context /\
                       dom (validationErrors context) ⊆ dom (validationErrors ctx)));
    [|done].
  intros p ctx [Hm Hsub]. split; [done|].
  rewrite validationErrors_report, dom_insert. set_solver.
Qed.

End ValidatorMore.

(** ** More on the query batcher *)

Section BatcherMore.
Context `{GQlessClient}.

Lemma settlePromise_settleWith req outcome :
  settlePromise (settleWith req outcome) = promise req.
Proof. by destruct outcome. Qed.

Lemma deliver_general (reqs : list RequestEntry) (results : list result) i :
  deliver reqs results i =
  (zip_with (fun req res => Resolve (promise req) res) (drop i reqs) results,
   if decide (length reqs - i < length results) then Some type_error else None).
Proof.
  revert i. induction results as [|res rest IH]; intros i.
  - cbn [deliver length]. rewrite decide_False by lia. by destruct (drop i reqs).
  - cbn [deliver length]. destruct (reqs !! i) as [req|] eqn:Hi.
    + rewrite IH. rewrite (drop_S _ _ _ Hi). cbn [zip_with].
      f_equal. apply lookup_lt_Some in Hi.
      destruct (decide (length reqs - S i < length rest)),
               (decide (length reqs - i < S (length rest))); done || lia.
    + apply lookup_ge_None in Hi. rewrite drop_ge by done.
      rewrite decide_True by lia. done.
Qed.

Lemma retryEach_promises (reqs : list RequestEntry) c :
  settlePromise <$> (retryEach reqs c).1 ≡ₚ promise <$> reqs.
Proof.
  rewrite retryEach_callbacks.
  enough (Hgen : forall (g : nat -> RequestEntry -> result + error) l,
             settlePromise <$> imap (fun i req => settleWith req (g i req)) l
             = promise <$> l)
    by (by rewrite (Hgen (fun i req => (resolved (clientBefore reqs i c) (func req)).1))).
  intros g l. revert g. induction l as [|req rest IH]; intros g; [done|].
  cbn [imap fmap list_fmap]. rewrite settlePromise_settleWith. f_equal.
  apply (IH (fun i => g (S i))).
Qed.

Lemma onError_promises (reqs : list RequestEntry) err c :
  settlePromise <$> (onError reqs err c).1 ≡ₚ promise <$> reqs.
Proof.
  unfold onError. destruct (Nat.eqb_spec (length reqs) 1) as [Hone|_].
  - destruct reqs as [|req [|]]; done.
  - apply retryEach_promises.
Qed.

Lemma zip_resolve_promises (reqs : list RequestEntry) (results : list result) :
  settlePromise <$> zip_with (fun req res => Resolve (promise req) res) reqs results
  = promise <$> take (length results) reqs.
Proof.
  revert results. induction reqs as [|req rest IH]; intros [|res results]; try done.
  cbn. by rewrite IH.
Qed.

(** X10. A combined call that succeeds with fewer results than entries
    resolves the first entries by position and calls no callback of the
    entries after them: their promises stay pending. *)
Theorem runRequests_missing_results (b : Batcher) (c c1 : client) (results : list result) :
  resolved_all c (func <$> requests b) = (inl results, c1) ->
  length results <= length (requests b) ->
  (runRequests b c).2 =
    zip_with (fun req res => Resolve (promise req) res) (requests b) results /\
  settlePromise <$> (runRequests b c).2 =
    promise <$> take (length results) (requests b).
Proof.
  intros Hall Hlen.
  assert (Hcalls : (runRequests b c).2 =
    zip_with (fun req res => Resolve (promise req) res) (requests b) results).
  { unfold runRequests. rewrite Hall, deliver_general.
    rewrite decide_False by (cbn; lia). done. }
  split; [done|]. rewrite Hcalls. apply zip_resolve_promises.
Qed.

(** X11. A combined call that succeeds with more results than entries
    resolves every entry by position, then fails on the first result
    without an entry and goes through the error path with that
    [TypeError]: the one entry is rejected after it was resolved, or
    every function is run once more. *)
Theorem runRequests_extra_results (b : Batcher) (c c1 : client) (results : list result) :
  resolved_all c (func <$> requests b) = (inl results, c1) ->
  length (requests b) < length results ->
  (runRequests b c).2 =
    zip_with (fun req res => Resolve (promise req) res) (requests b) results
    ++ (onError (requests b) type_error c1).1.
Proof.
  intros Hall Hlen. unfold runRequests. rewrite Hall, deliver_general.
  rewrite decide_True by (cbn; lia).
  by destruct (onError (requests b) type_error c1).
Qed.

Lemma runRequests_promises_subset (b : Batcher) (c : client) :
  settlePromise <$> (runRequests b c).2 ⊆ promise <$> requests b.
Proof.
  unfold runRequests.
  destruct (resolved_all c _) as [[results|err] c1].
  - rewrite deliver_general.
    assert (Hzip : settlePromise <$> zip_with (fun req res => Resolve (promise req) res)
                     (requests b) results ⊆ promise <$> requests b).
    { rewrite zip_resolve_promises. intros p Hp.
      apply list_elem_of_fmap in Hp as (req & -> & Hin).
      apply list_elem_of_fmap. exists req. split; [done|].
      by eapply subseteq_take. }
    destruct (decide _); [|exact Hzip].
    pose proof (onError_promises (requests b) type_error c1) as He.
    destruct (onError _ _ _) as [more c2]. cbn in *.
    rewrite fmap_app. intros p [Hp|Hp]%elem_of_app; [by apply Hzip|].
    by rewrite <- He.
  - pose proof (onError_promises (requests b) err c1) as He.
    destruct (onError _ _ _) as [calls c2]. cbn in *.
    intros p Hp. by rewrite <- He.
Qed.

Lemma runRequests_promises_exact (b : Batcher) (c : client) :
  (forall c fs rs c', resolved_all c fs = (inl rs, c') -> length rs = length fs) ->
  settlePromise <$> (runRequests b c).2 ≡ₚ promise <$> requests b.
Proof.
  intros Hwell. unfold runRequests.
  destruct (resolved_all c _) as [[results|err] c1] eqn:Hall.
  - apply Hwell in Hall. rewrite length_fmap in Hall.
    rewrite deliver_general, decide_False by lia. cbn [snd]. rewrite drop_0.
    rewrite zip_resolve_promises. by rewrite take_ge by lia.
  - pose proof (onError_promises (requests b) err c1) as He.
    destruct (onError _ _ _) as [calls c2]. cbn in *. by rewrite He.
Qed.

Lemma step_TimerFires_settled (w : World) u :
  hTimeout (batcher w) = Some u ->
  settled (step w TimerFires) =
    settled w ++ (runRequests {| requests := requests (batcher w); hTimeout := None |}
                    (gqlessClient w)).2.
Proof.
  intros Harmed. cbn [step]. rewrite Harmed. unfold onTimeout.
  by destruct (runRequests _ _) as [[b' c'] calls].
Qed.

Lemma run_settled_subset (events : list event) (w : World) :
  settlePromise <$> settled w ⊆ promise <$> concat (cycles w) ->
  settlePromise <$> settled (run events w) ⊆ promise <$> concat (cycles (run events w)).
Proof.
  revert w. induction events as [|[f|] rest IH]; intros w Hw; [done| |].
  - by apply IH.
  - apply IH. destruct (hTimeout (batcher w)) as [u|] eqn:Harmed.
    + destruct (step_TimerFires_armed w u Harmed) as (_ & _ & Hc & _).
      rewrite Hc, (step_TimerFires_settled w u Harmed).
      rewrite concat_app, !fmap_app. cbn [concat]. rewrite app_nil_r.
      pose proof (runRequests_promises_subset
                    {| requests := requests (batcher w); hTimeout := None |}
                    (gqlessClient w)) as Hsub. cbn [requests] in Hsub.
      intros p [Hp|Hp]%elem_of_app; apply elem_of_app; [left; by apply Hw|right; by apply Hsub].
    + by rewrite step_TimerFires_idle.
Qed.

(** X12. Whatever the client does, a callback is only ever called for an
    entry of a queue that was taken: nothing pending is settled. *)
Theorem settled_only_flushed (events : list event) (c : client) :
  settlePromise <$> settled (run events (init c))
  ⊆ promise <$> concat (cycles (run events (init c))).
Proof. by apply run_settled_subset. Qed.

Lemma run_settled_exact (events : list event) (w : World) :
  (forall c fs rs c', resolved_all c fs = (inl rs, c') -> length rs = length fs) ->
  settlePromise <$> settled w ≡ₚ promise <$> concat (cycles w) ->
  settlePromise <$> settled (run events w) ≡ₚ promise <$> concat (cycles (run events w)).
Proof.
  intros Hwell. revert w. induction events as [|[f|] rest IH]; intros w Hw; [done| |].
  - by apply IH.
  - apply IH. destruct (hTimeout (batcher w)) as [u|] eqn:Harmed.
    + destruct (step_TimerFires_armed w u Harmed) as (_ & _ & Hc & _).
      rewrite Hc, (step_TimerFires_settled w u Harmed).
      rewrite concat_app, !fmap_app. cbn [concat]. rewrite app_nil_r.
      rewrite Hw. f_equiv.
      by rewrite runRequests_promises_exact.
    + by rewrite step_TimerFires_idle.
Qed.

(** X13. With a client that returns one result per function, every entry
    of every queue taken gets exactly one callback: the promises settled,
    counted with repetition and in whatever order the answers came, are
    the promises of the entries taken. *)
Theorem settled_exactly_once (events : list event) (c : client) :
  (forall c fs rs c', resolved_all c fs = (inl rs, c') -> length rs = length fs) ->
  settlePromise <$> settled (run events (init c))
  ≡ₚ promise <$> concat (cycles (run events (init c))).
Proof. intros Hwell. by apply run_settled_exact. Qed.

Lemma request_spec (f : RequestFunc) (p : nat) (b : Batcher) :
  requests (request f p b) = requests b ++ [{| func := f; promise := p |}] /\
  hTimeout (request f p b) = Some ().
Proof. unfold request. cbn [hTimeout requests]. by destruct (hTimeout b) as [[]|]. Qed.

Lemma run_submits (fs : list RequestFunc) (w : World) :
  let w' := run (Submit <$> fs) w in
  requests (batcher w') =
    requests (batcher w) ++ imap (fun i f => {| func := f; promise := promises w + i |}) fs /\
  hTimeout (batcher w') = match fs with [] => hTimeout (batcher w) | _ => Some () end /\
  cycles w' = cycles w /\ settled w' = settled w /\ gqlessClient w' = gqlessClient w /\
  promises w' = promises w + length fs.
Proof.
  revert w. induction fs as [|f rest IH]; intros w.
  { cbn. rewrite app_nil_r. repeat split; try done; lia. }
  specialize (IH (step w (Submit f))). cbv zeta in IH.
  destruct IH as (Hr & Ht & Hc & Hs & Hg & Hp).
  change (run (Submit <$> f :: rest) w) with (run (Submit <$> rest) (step w (Submit f))).
  cbv zeta. rewrite Hr, Ht, Hc, Hs, Hg, Hp.
  cbn [step batcher promises cycles settled gqlessClient].
  destruct (request_spec f (promises w) (batcher w)) as [Hq Hq'].
  rewrite Hq, Hq'. repeat split; try done.
  - rewrite <- app_assoc. f_equal. cbn [imap app]. rewrite Nat.add_0_r. f_equal.
    apply imap_ext. intros i x _. cbn. f_equal. lia.
  - by destruct rest.
  - cbn [length]. lia.
Qed.

(** X14. The functions submitted to a new batcher before its timer fires
    make one cycle: one queue is taken, holding all of them in order, the
    callbacks called are those of one [runRequests] on that queue, and
    the batcher is left empty with no timer. *)
Theorem window_is_one_cycle (fs : list RequestFunc) (c : client) :
  fs <> [] ->
  let w := run ((Submit <$> fs) ++ [TimerFires]) (init c) in
  cycles w = [imap (fun i f => {| func := f; promise := i |}) fs] /\
  batcher w = {| requests := []; hTimeout := None |} /\
  settled w =
    (runRequests {| requests := imap (fun i f => {| func := f; promise := i |}) fs;
                    hTimeout := None |} c).2.
Proof.
  intros Hne w. subst w. unfold run. rewrite foldl_app. cbn [foldl].
  destruct (run_submits fs (init c)) as (Hr & Ht & Hc & Hs & Hg & Hp).
  assert (Ht' : hTimeout (batcher (run (Submit <$> fs) (init c))) = Some ())
    by (rewrite Ht; by destruct fs).
  clear Ht. rename Ht' into Ht.
  fold (run (Submit <$> fs) (init c)).
  set (w1 := run (Submit <$> fs) (init c)) in *. cbn [init batcher requests promises cycles settled gqlessClient app] in *.
  destruct (step_TimerFires_armed w1 () Ht) as (Hr' & Ht' & Hc' & _).
  repeat split.
  - by rewrite Hc', Hc, Hr.
  - revert Hr' Ht'. destruct (batcher (step w1 TimerFires)) as [r h]. cbn.
    by intros -> ->.
  - rewrite (step_TimerFires_settled w1 () Ht), Hs, Hr, Hg. done.
Qed.

End BatcherMore.

(** ** The data provider *)

Section ProviderFacts.
Context `{JSNumber}.
Import DataProvider.

Lemma obj_get_set_eq fields key x : obj_get (obj_set fields key x) key = x.
Proof.
  induction fields as [|[k y] rest IH]; cbn [obj_set obj_get].
  - by rewrite String.eqb_refl.
  - destruct (String.eqb k key) eqn:Hk; cbn [obj_get]; by rewrite Hk.
Qed.

Lemma obj_get_set_ne fields key key' x :
  key <> key' -> obj_get (obj_set fields key x) key' = obj_get fields key'.
Proof.
  intros Hne. induction fields as [|[k y] rest IH]; cbn [obj_set obj_get].
  - by destruct (String.eqb_spec key key').
  - destruct (String.eqb_spec k key) as [->|Hk]; cbn [obj_get].
    + by destruct (String.eqb_spec key key').
    + by rewrite IH.
Qed.

Lemma obj_set_keys fields key x :
  (obj_set fields key x).*1 =
  if decide (key ∈ fields.*1) then fields.*1 else fields.*1 ++ [key].
Proof.
  induction fields as [|[k y] rest IH]; cbn [obj_set].
  - rewrite decide_False; [done|]. apply not_elem_of_nil.
  - destruct (String.eqb_spec k key) as [->|Hk]; cbn [fmap list_fmap fst].
    + rewrite decide_True; [done|]. apply elem_of_cons. by left.
    + cbn in IH. rewrite IH. destruct (decide (key ∈ rest.*1)) as [Hin|Hnin].
      * rewrite decide_True; [done|]. apply elem_of_cons. by right.
      * rewrite decide_False; [done|]. intros [->|?]%elem_of_cons; done.
Qed.

(** X15. The input of an update carries the record id in [data.id]: it
    replaces an [id] the data came with, in place, or is added after the
    other properties, and every other property of the data is passed on
    unchanged. *)
Theorem updateOperation_input_id (params : UpdateParams) :
  exists fields,
    updateOperation_input params = VObj [("data", VObj fields)] /\
    obj_get fields "id" = id params /\
    (forall key, key <> "id" -> obj_get fields key = obj_get (spread (data params)) key) /\
    fields.*1 = if decide ("id" ∈ (spread (data params)).*1)
                then (spread (data params)).*1
                else (spread (data params)).*1 ++ ["id"].
Proof.
  eexists. split; [reflexivity|]. split; [apply obj_get_set_eq|]. split.
  - intros key Hne. by apply obj_get_set_ne.
  - apply obj_set_keys.
Qed.

(** What becomes of a [GQlessError] with a first GraphQL error. *)
Lemma defaultErrorHandler_first (firstError : GraphQLError) (rest : list GraphQLError) :
  let error := GQlessError (Some (firstError :: rest)) in
  defaultErrorHandler error = error \/
  (defaultErrorHandler error = defaultErrorHandler (GQlessError (Some [firstError])) /\
   (defaultErrorHandler error = UnauthorizedError (message firstError) \/
    exists found, ToBoolean found = true /\
      defaultErrorHandler error = ValidationError found (message firstError))).
Proof.
  cbv zeta. cbn [defaultErrorHandler]. cbv zeta.
  destruct (is_string _ "BAD_USER_INPUT").
  - destruct (ToBoolean (get_prop _ "validationErrors")) eqn:Hfound; [|by left].
    right. split; [done|]. right. by eexists.
  - destruct (_ || _); [|by left]. right. split; [done|]. by left.
Qed.

(** X16. [defaultErrorHandler] throws the error it was given, unless that
    is a [GQlessError] with at least one GraphQL error: anything else, a
    [GQlessError] without [graphQLErrors] or with an empty list of them
    included, comes out as it is.  With a first GraphQL error it comes
    out as it is, as an [UnauthorizedError] or as a [ValidationError]
    carrying a truthy value, either with the message of that first error;
    the errors after the first play no part.  Handling what the handler
    threw once more changes nothing. *)
Theorem defaultErrorHandler_translates_once (error : Thrown) :
  defaultErrorHandler (defaultErrorHandler error) = defaultErrorHandler error /\
  match error with
  | GQlessError (Some (firstError :: rest)) =>
      (defaultErrorHandler error = error \/
       defaultErrorHandler error = UnauthorizedError (message firstError) \/
       exists found, ToBoolean found = true /\
         defaultErrorHandler error = ValidationError found (message firstError)) /\
      (defaultErrorHandler error = error \/
       defaultErrorHandler error = defaultErrorHandler (GQlessError (Some [firstError])))
  | _ => defaultErrorHandler error = error
  end.
Proof.
  destruct error as [[[|firstError rest]|]| | |]; try done.
  destruct (defaultErrorHandler_first firstError rest) as [Heq|[Hone Hwhat]];
    cbv zeta in *.
  - rewrite !Heq. split; [done|]. split; by left.
  - split; [|split; [right; exact Hwhat | by right]].
    destruct Hwhat as [->|(found & _ & ->)]; done.
Qed.
End ProviderFacts.

(** ** The further theorems at work *)

Section WorkedMore.
#[local] Existing Instance IntRuntime.int_numbers.
#[local] Existing Instance Examples.queries.
#[local] Existing Instance Scenarios.node.
Import Examples Scenarios.

Example fixInputData_wellTyped :
  fixInputData wellTyped userCreate schema = wellTyped.
Proof. reflexivity. Qed.

Example validateRequiredInputData_wellTyped :
  validateRequiredInputData wellTyped userCreate schema "Required" = None.
Proof. reflexivity. Qed.

(** One result for two entries: the second entry hears nothing. *)
Example runRequests_sloppy_short :
  (runRequests (H := sloppy) sloppyQueue true).2 = [@Resolve sloppy 0 101].
Proof. reflexivity. Qed.

(** Three results for two entries: both are resolved, and then both
    functions are run again and both entries resolved a second time. *)
Example runRequests_sloppy_long :
  (runRequests (H := sloppy) sloppyQueue false).2 =
  [@Resolve sloppy 0 101; @Resolve sloppy 1 102;
   @Resolve sloppy 0 101; @Resolve sloppy 1 102].
Proof. reflexivity. Qed.

Lemma queries_one_result_each :
  forall (c : client) (fs : list RequestFunc) (rs : list result) (c' : client),
    resolved_all (GQlessClient := queries) c fs = (inl rs, c') -> length rs = length fs.
Proof.
  intros c fs rs c'.
  change (resolved_all c fs)
    with (if forallb (fun f => f <? 10) fs
          then inl (Nat.add 100 <$> fs) else inr "batch failed" : list nat + string,
          S c).
  destruct (forallb (fun f => f <? 10) fs); [|done].
  intros [= <- _]. apply length_fmap.
Qed.

Lemma fixInputData_keys_witness :
  Chain.fixInputData (VObj [("toString", VNull); ("extra", VBool true); ("id", num 1)])
    userById schema
    = Some (VObj [("toString", VNull); ("id", VStr "1")]) /\
  keys (VObj [("toString", VNull); ("id", VStr "1")])
    = filter (fun key => Chain.kept (Chain.readArg userById) key = true)
             ["toString"; "extra"; "id"].
Proof.
  split; [reflexivity|].
  apply (fixInputData_keys [("toString", VNull); ("extra", VBool true); ("id", num 1)]
           userById schema). reflexivity.
Defined.

Lemma fixValue_object_keys_witness :
  (isArray (parseSchemaType "UserInput") = false /\
   isScalar (pureType (parseSchemaType "UserInput")) = false /\
   schema !! pureType (parseSchemaType "UserInput") = Some userInputFields /\
   Chain.fixValue (VObj [("zzz", VNull); ("age", VStr "42"); ("valueOf", VNull); ("name", num 3)])
     (Chain.TypeString "UserInput") schema
     = Some (VObj [("age", num 42); ("valueOf", VNull); ("name", VStr "3")])) /\
  keys (VObj [("age", num 42); ("valueOf", VNull); ("name", VStr "3")])
  = filter (fun key => Chain.kept (Chain.readField userInputFields) key = true)
           ["zzz"; "age"; "valueOf"; "name"].
Proof.
  split; [repeat split; reflexivity|].
  apply (fixValue_object_keys
           [("zzz", VNull); ("age", VStr "42"); ("valueOf", VNull); ("name", num 3)]
           "UserInput" schema userInputFields); reflexivity.
Defined.



Lemma fixValue_scalar_typeof_witness :
  (is_nullish (VStr "42") = false /\
   isArray (parseSchemaType "Int") = false /\
   isScalar (pureType (parseSchemaType "Int")) = true) /\
  typeofMatches (pureType (parseSchemaType "Int")) (fixValue (VStr "42") "Int" schema)
  = true.
Proof.
  split; [repeat split; reflexivity|].
  apply (fixValue_scalar_typeof (VStr "42") "Int" schema); reflexivity.
Defined.

Lemma fixInputData_no_arguments_witness :
  (isPlainObject input = true /\
   forall key, key ∈ keys input -> Chain.readArg ping key = Chain.Skip) /\
  Chain.fixInputData input ping schema = Some (VObj []).
Proof.
  split; [split; [reflexivity | intros key _; reflexivity]|].
  apply (fixInputData_no_arguments input ping schema); [reflexivity|].
  intros key _. reflexivity.
Defined.

Lemma fixInputData_inherited_name_witness :
  ((("toString", VNull) : string * value) ∈ [("toString", VNull); ("id", num 1)] /\
   Chain.readArg userById "toString" = Chain.Expect Chain.NotAString) /\
  (is_nullish VNull = false ->
   Chain.fixInputData shadowing userById schema = None) /\
  (is_nullish VNull = true -> "toString" <> "__proto__" ->
   forall result,
     Chain.fixInputData shadowing userById schema = Some (VObj result) ->
     ("toString", VNull) ∈ result).
Proof.
  split; [split; [apply elem_of_cons; by left | reflexivity]|].
  apply (fixInputData_inherited_name [("toString", VNull); ("id", num 1)] userById schema
           "toString" VNull); [apply elem_of_cons; by left | reflexivity].
Defined.

Lemma fixInputData_prunes_own_names_witness :
  (isPlainObject input = true /\ Chain.ownNamesOnly input = true /\
   Chain.fixInputData input userCreate schema
     = Some (fixInputData input userCreate schema)) /\
  prunedArgs userCreate schema (fixInputData input userCreate schema) = true.
Proof.
  split; [repeat split; reflexivity|].
  apply (fixInputData_prunes_own_names input _ userCreate schema); reflexivity.
Defined.

Lemma fixInputData_on_own_names_witness :
  (plainTypes userCreate schema = true /\ plainType "[UserInput!]" = true /\
   Chain.ownNamesOnly input = true /\ Chain.ownNamesOnly (VArr [input; VNull]) = true) /\
  Chain.fixInputData input userCreate schema = Some (fixInputData input userCreate schema) /\
  Chain.fixValue (VArr [input; VNull]) (Chain.TypeString "[UserInput!]") schema
    = Some (fixValue (VArr [input; VNull]) "[UserInput!]" schema).
Proof.
  split; [repeat split; reflexivity|].
  apply (fixInputData_on_own_names input (VArr [input; VNull]) userCreate schema
           "[UserInput!]"); reflexivity.
Defined.
Lemma validateRequiredInputData_complete_witness :
  (plainNames userCreate schema = true /\ isPlainObject wellTyped = true) /\
  (validateRequiredInputData wellTyped userCreate schema "Required" = None <->
   completeArgs userCreate schema wellTyped = true).
Proof.
  split; [split; reflexivity|].
  apply (validateRequiredInputData_complete wellTyped userCreate schema "Required");
    reflexivity.
Defined.

Lemma validateRequiredInputData_result_witness :
  validateRequiredInputData (VObj [("id", VNull)]) userCreate schema "Required"
    = Some {[ "" := "Required" ]} /\
  ({[ "" := "Required" ]} : ValidationErrors) <> ∅ /\
  forall fieldPath text,
    ({[ "" := "Required" ]} : ValidationErrors) !! fieldPath = Some text ->
    text = "Required".
Proof.
  split; [reflexivity|].
  apply (validateRequiredInputData_result (VObj [("id", VNull)]) userCreate schema
           "Required" {[ "" := "Required" ]}).
  reflexivity.
Defined.

Lemma runRequests_missing_results_witness :
  (resolved_all (GQlessClient := sloppy) true (func <$> requests sloppyQueue)
     = (inl ([101] : list (@result sloppy)), true) /\
   length [101] <= length (requests sloppyQueue)) /\
  (runRequests sloppyQueue true).2 =
    zip_with (fun req res => @Resolve sloppy (promise req) res) (requests sloppyQueue) [101] /\
  settlePromise <$> (runRequests sloppyQueue true).2 =
    promise <$> take (length [101]) (requests sloppyQueue).
Proof.
  split; [split; [reflexivity|cbn; lia]|].
  apply (runRequests_missing_results (H := sloppy) sloppyQueue true true [101]);
    [reflexivity|cbn; lia].
Defined.

Lemma runRequests_extra_results_witness :
  (resolved_all (GQlessClient := sloppy) false (func <$> requests sloppyQueue)
     = (inl ([101; 102; 0] : list (@result sloppy)), false) /\
   length (requests sloppyQueue) < length [101; 102; 0]) /\
  (runRequests sloppyQueue false).2 =
    zip_with (fun req res => @Resolve sloppy (promise req) res) (requests sloppyQueue)
      [101; 102; 0]
    ++ (onError (requests sloppyQueue) (@type_error sloppy) false).1.
Proof.
  split; [split; [reflexivity|cbn; lia]|].
  apply (runRequests_extra_results (H := sloppy) sloppyQueue false false [101; 102; 0]);
    [reflexivity|cbn; lia].
Defined.

Lemma settled_exactly_once_witness :
  (forall (c : client) (fs : list RequestFunc) (rs : list result) (c' : client),
     resolved_all (GQlessClient := queries) c fs = (inl rs, c') ->
     length rs = length fs) /\
  settlePromise <$> settled (run burst (init 0))
  ≡ₚ promise <$> concat (cycles (run burst (init 0))).
Proof.
  split; [exact queries_one_result_each|].
  apply (settled_exactly_once (H := queries) burst 0).
  exact queries_one_result_each.
Defined.

Lemma window_is_one_cycle_witness :
  window <> [] /\
  let w := run ((Submit <$> window) ++ [TimerFires]) (init 0) in
  cycles w = [imap (fun i f => {| func := f; promise := i |}) window] /\
  batcher w = {| requests := []; hTimeout := None |} /\
  settled w =
    (runRequests {| requests := imap (fun i f => {| func := f; promise := i |}) window;
                    hTimeout := None |} 0).2.
Proof.
  split; [discriminate|].
  apply (window_is_one_cycle (H := queries) window 0). discriminate.
Defined.

End WorkedMore.
